(** * Resilient e-mail dispatch: a shallow embedding of [src/EmailService.js]

    The JavaScript classes [MockEmailProvider], [RateLimiter],
    [CircuitBreaker] and [EmailService] are rendered as records and
    functions over them.  Everything the code obtains from outside
    ([Date.now()], [Math.random()], the passage of time during a
    [setTimeout], the answer of a provider) goes through an explicit
    outside world [Ext]; what the code does to the outside (calling a
    provider, waiting, writing to the console) is returned as a list of
    events in chronological order.

    Numbers are JavaScript numbers in the source.  Counters, timestamps
    and delays are integers there (far below 2^53, where doubles are
    exact), and are integers of type [Z] here. *)

From Stdlib Require Import ZArith QArith Lia.
From stdpp Require Import base gmap sets list strings sorting pretty.

Local Open Scope string_scope.
Local Open Scope list_scope.
Local Open Scope Z_scope.

(** ** Values, promises and observable events *)

(** The literal object [{ to, subject }] handed to [send]. *)
Record Email := mkEmail { to : string; subject : string }.

(** What [catch (err)] receives when a provider fails.  A promise can be
    rejected with any value, and the code reads [err.message] of it:
    [mkError message] is an object with that message, as made by
    [new Error(message)]; [no_message] is any other value except
    [undefined] and [null], on which [err.message] is [undefined];
    [thrown_undefined] and [thrown_null] are [undefined] and [null]
    themselves, on which reading a property throws. *)
Inductive Error :=
| mkError (message : string)
| no_message
| thrown_undefined
| thrown_null.

(** [err.message] as [console.log] prints it, or the [TypeError] that
    reading it throws. *)
Definition read_message (err : Error) : Error + string :=
  match err with
  | mkError message => inr message
  | no_message => inr "undefined"
  | thrown_undefined =>
    inl (mkError "Cannot read properties of undefined (reading 'message')")
  | thrown_null =>
    inl (mkError "Cannot read properties of null (reading 'message')")
  end.

(** [nullish err]: [err] is [undefined] or [null]. *)
Definition nullish (err : Error) : bool :=
  match err with
  | thrown_undefined | thrown_null => true
  | mkError _ | no_message => false
  end.

(** The values a promise of this program is fulfilled with: a status or
    receipt string, or [undefined]. *)
Inductive Value :=
| undefined
| str (s : string).

(** How an awaited promise settles: [await] either yields the value or
    throws the error. *)
Inductive Settled :=
| Fulfilled (v : Value)
| Rejected (e : Error).

Definition is_rejected (r : Settled) : bool :=
  match r with Rejected _ => true | Fulfilled _ => false end.

(** What a call does to the outside, oldest first.  [Invoked tag r]: the
    collaborator function labelled [tag] was called and its promise
    settled as [r] (for a provider the label is its index in
    [this.providers]).  [Waited ms]: a [setTimeout(res, ms)] was awaited.
    [Logged line detail]: [console.log(line, detail)]. *)
Inductive Event :=
| Invoked (tag : nat) (outcome : Settled)
| Waited (ms : Z)
| Logged (line detail : string).

(** The provider indices invoked by a run, in order. *)
Definition invocations (evs : list Event) : list nat :=
  omap (λ e, match e with Invoked tag _ => Some tag | _ => None end) evs.

(** The backoff delays awaited by a run, in order. *)
Definition delays (evs : list Event) : list Z :=
  omap (λ e, match e with Waited ms => Some ms | _ => None end) evs.

(** ** The JavaScript runtime seen from the program *)

(** [Ext] is the state of everything outside the program: the wall
    clock, the random generator, the providers' back ends.  Nothing is
    assumed about it; in particular the clock need not be monotone. *)
Class Runtime (Ext : Type) := {
  (** [Date.now()], in milliseconds *)
  date_now : Ext → Z * Ext;
  (** [Math.random()], a number in [0, 1) *)
  math_random : Ext → Q * Ext;
  (** the world after [await new Promise(res => setTimeout(res, ms))] *)
  set_timeout : Z → Ext → Ext;
}.

(** A computation reads and changes the outside world and reports the
    events it caused. *)
Definition M (Ext A : Type) : Type := Ext → A * Ext * list Event.

#[export] Instance M_ret {Ext} : MRet (M Ext) :=
  λ A (a : A) ext, (a, ext, []).

#[export] Instance M_bind {Ext} : MBind (M Ext) :=
  λ A B (k : A → M Ext B) (m : M Ext A) ext,
    let '(a, ext1, evs1) := m ext in
    let '(b, ext2, evs2) := k a ext1 in
    (b, ext2, evs1 ++ evs2).

(** The body of an asynchronous collaborator function: it settles one
    way or the other and may change the outside world. *)
Definition Async (Ext : Type) : Type := Ext → Settled * Ext.

(** [await f()] for a collaborator [f] labelled [tag]. *)
Definition call {Ext} (tag : nat) (f : Async Ext) : M Ext Settled :=
  λ ext, let '(r, ext1) := f ext in (r, ext1, [Invoked tag r]).

(** [await new Promise(res => setTimeout(res, ms))] *)
Definition sleep `{Runtime Ext} (ms : Z) : M Ext unit :=
  λ ext, (tt, set_timeout ms ext, [Waited ms]).

(** [console.log(line, detail)] *)
Definition console_log {Ext} (line detail : string) : M Ext unit :=
  λ ext, (tt, ext, [Logged line detail]).

(** [Date.now()] *)
Definition Date_now `{Runtime Ext} : M Ext Z :=
  λ ext, let '(t, ext1) := date_now ext in (t, ext1, []).

(** Anything with a [name] and a [sendEmail(email)] method is a
    provider. *)
Record Provider (Ext : Type) := mkProvider {
  name : string;
  sendEmail : Email → Async Ext;
}.
Arguments mkProvider {Ext}.
Arguments name {Ext}.
Arguments sendEmail {Ext}.

(** ** class MockEmailProvider *)
Module MockEmailProvider.

Record t := mk { name : string; shouldFail : bool }.

(** [constructor(name)] *)
Definition new (name : string) : t := {| name := name; shouldFail := false |}.

Definition sendEmail `{Runtime Ext} (this : t) (email : Email) : Async Ext :=
  λ ext,
    if shouldFail this then
      (Rejected (mkError (name this +:+ " failed")), ext)
    else
      let '(r, ext1) := math_random ext in
      if negb (Qle_bool r (7 # 10)) then
        (Rejected (mkError (name this +:+ " failed")), ext1)
      else
        (Fulfilled (str (name this +:+ " sent email to " +:+ to email)), ext1).

Definition provider `{Runtime Ext} (this : t) : Provider Ext :=
  mkProvider (name this) (sendEmail this).

End MockEmailProvider.

(** ** class RateLimiter *)
Module RateLimiter.

Record t := mk { limit : Z; interval : Z; timestamps : list Z }.

(** [constructor(limit, interval)] *)
Definition new (limit interval : Z) : t :=
  {| limit := limit; interval := interval; timestamps := [] |}.

(** The body of [allow()] once [Date.now()] has been read. *)
Definition allow_at (now : Z) (this : t) : bool * t :=
  let kept := filter (λ ts, now - ts < interval this) (timestamps this) in
  if Z.of_nat (length kept) <? limit this then
    (true, {| limit := limit this; interval := interval this;
              timestamps := kept ++ [now] |})
  else
    (false, {| limit := limit this; interval := interval this;
               timestamps := kept |}).

Definition allow `{Runtime Ext} (this : t) : M Ext (bool * t) :=
  now ← Date_now; mret (allow_at now this).

End RateLimiter.

(** ** class CircuitBreaker *)
Module CircuitBreaker.

Record t := mk {
  failureThreshold : Z;
  recoveryTime : Z;
  failures : Z;
  lastFailureTime : Z;
}.

(** [constructor(failureThreshold = 3, recoveryTime = 10000)] *)
Definition new (failureThreshold recoveryTime : Z) : t :=
  {| failureThreshold := failureThreshold; recoveryTime := recoveryTime;
     failures := 0; lastFailureTime := 0 |}.

Definition default : t := new 3 10000.

(** [allow()]: [&&] reads the clock only when the count has reached
    the threshold. *)
Definition allow `{Runtime Ext} (this : t) : M Ext bool :=
  if failureThreshold this <=? failures this then
    now ← Date_now;
    mret (negb (now - lastFailureTime this <? recoveryTime this))
  else mret true.

Definition recordFailure `{Runtime Ext} (this : t) : M Ext t :=
  now ← Date_now;
  mret {| failureThreshold := failureThreshold this;
          recoveryTime := recoveryTime this;
          failures := failures this + 1;
          lastFailureTime := now |}.

Definition reset (this : t) : t :=
  {| failureThreshold := failureThreshold this;
     recoveryTime := recoveryTime this;
     failures := 0;
     lastFailureTime := lastFailureTime this |}.

(** The three methods, as operations on one breaker object. *)
Inductive method := Allow | RecordFailure | Reset.

(** The breaker after a method call. *)
Definition after `{Runtime Ext} (m : method) (this : t) : M Ext t :=
  match m with
  | Allow => _ ← allow this; mret this
  | RecordFailure => recordFailure this
  | Reset => mret (reset this)
  end.

End CircuitBreaker.

(** ** class EmailService *)
Module EmailService.

Record t (Ext : Type) := mk {
  providers : list (Provider Ext);
  rateLimiter : RateLimiter.t;
  statusLog : gmap string string;
  sentEmails : gset string;
  circuitBreakers : list CircuitBreaker.t;
}.
Arguments mk {Ext}.
Arguments providers {Ext}.
Arguments rateLimiter {Ext}.
Arguments statusLog {Ext}.
Arguments sentEmails {Ext}.
Arguments circuitBreakers {Ext}.

(** [constructor(providers)]: no check is made on [providers]. *)
Definition constructor {Ext} (providers : list (Provider Ext)) : t Ext :=
  {| providers := providers;
     rateLimiter := RateLimiter.new 5 10000;
     statusLog := ∅;
     sentEmails := ∅;
     circuitBreakers := (λ _, CircuitBreaker.default) <$> providers |}.

(** Assignments to the fields of [this]. *)
Definition set_rateLimiter {Ext} (rl : RateLimiter.t) (this : t Ext) : t Ext :=
  mk (providers this) rl (statusLog this) (sentEmails this)
     (circuitBreakers this).

Definition set_statusLog {Ext} (log : gmap string string) (this : t Ext) : t Ext :=
  mk (providers this) (rateLimiter this) log (sentEmails this)
     (circuitBreakers this).

Definition set_sentEmails {Ext} (sent : gset string) (this : t Ext) : t Ext :=
  mk (providers this) (rateLimiter this) (statusLog this) sent
     (circuitBreakers this).

Definition set_circuitBreakers {Ext} (cbs : list CircuitBreaker.t) (this : t Ext) : t Ext :=
  mk (providers this) (rateLimiter this) (statusLog this) (sentEmails this)
     cbs.

(** [trackStatus(id, status)] stores the status and hands it back. *)
Definition trackStatus {Ext} (this : t Ext) (id status : string) : string * t Ext :=
  (status, set_statusLog (<[id := status]> (statusLog this)) this).

(** [getStatus(id)]: [Map.prototype.get] yields [undefined] for an
    unknown key. *)
Definition getStatus {Ext} (this : t Ext) (id : string) : Value :=
  match statusLog this !! id with
  | Some status => str status
  | None => undefined
  end.

(** The [while] loop of [retryWithBackoff] from a given value of
    [attempt].  Every iteration that does not leave the function
    increments [attempt], so [retries - attempt] bounds the number of
    iterations left; [left] counts them down. *)
Fixpoint retry_loop `{Runtime Ext} (left : nat) (fn : M Ext Settled)
    (retries delay attempt : Z) : M Ext Settled :=
  match left with
  | O => mret (Fulfilled undefined)
  | S left' =>
    if attempt <? retries then
      r ← fn;
      match r with
      | Fulfilled v => mret (Fulfilled v)
      | Rejected e =>
        let attempt := attempt + 1 in
        if retries <=? attempt then mret (Rejected e)
        else
          _ ← sleep (delay * 2 ^ attempt);
          retry_loop left' fn retries delay attempt
      end
    else mret (Fulfilled undefined)
  end.

(** [retryWithBackoff(fn, retries, delay)] *)
Definition retryWithBackoff `{Runtime Ext} (fn : M Ext Settled)
    (retries delay : Z) : M Ext Settled :=
  retry_loop (Z.to_nat retries) fn retries delay 0.

(** The defaults of [retryWithBackoff(fn, retries = 3, delay = 500)]. *)
Definition default_retries : Z := 3.
Definition default_delay : Z := 500.

(** What [undefined.allow()] throws when [this.circuitBreakers[i]] is
    missing. *)
Definition breaker_missing : Error :=
  mkError "Cannot read properties of undefined (reading 'allow')".

(** The [for] loop of [send] from index [i]; [rest] is what is left of
    [this.providers] from [i] on.  [retries] and [delay] are what
    [retryWithBackoff] is run with. *)
Fixpoint try_providers `{Runtime Ext} (retries delay : Z) (email : Email)
    (id : string) (rest : list (Provider Ext)) (i : nat) (this : t Ext)
    : M Ext (Settled * t Ext) :=
  match rest with
  | [] =>
    let '(status, this) := trackStatus this id "All providers failed" in
    mret (Fulfilled (str status), this)
  | provider :: rest' =>
    match circuitBreakers this !! i with
    | None => mret (Rejected breaker_missing, this)
    | Some breaker =>
      allowed ← CircuitBreaker.allow breaker;
      if negb allowed then
        try_providers retries delay email id rest' (S i) this
      else
        r ← retryWithBackoff (call i (sendEmail provider email)) retries delay;
        match r with
        | Fulfilled _ =>
          let this := set_sentEmails ({[id]} ∪ sentEmails this) this in
          let this :=
            set_circuitBreakers
              (<[i := CircuitBreaker.reset breaker]> (circuitBreakers this))
              this in
          let '(status, this) :=
            trackStatus this id ("Sent via " +:+ name provider) in
          mret (Fulfilled (str status), this)
        | Rejected err =>
          (* the arguments of [console.log] are evaluated first, and
             nothing encloses the [catch] block *)
          match read_message err with
          | inl type_error => mret (Rejected type_error, this)
          | inr detail =>
            _ ← console_log ("[LOG] Provider " +:+ name provider +:+ " failed:")
                            detail;
            breaker ← CircuitBreaker.recordFailure breaker;
            let this :=
              set_circuitBreakers (<[i := breaker]> (circuitBreakers this)) this in
            try_providers retries delay email id rest' (S i) this
          end
        end
    end
  end.

(** The body of [send(email, id)], with the retry parameters that the
    call [this.retryWithBackoff(fn)] leaves to their defaults made
    explicit. *)
Definition send_with `{Runtime Ext} (retries delay : Z) (this : t Ext)
    (email : Email) (id : string) : M Ext (Settled * t Ext) :=
  '(allowed, limiter) ← RateLimiter.allow (rateLimiter this);
  let this := set_rateLimiter limiter this in
  if negb allowed then
    let '(status, this) := trackStatus this id "Rate limited" in
    mret (Fulfilled (str status), this)
  else if decide (id ∈ sentEmails this) then
    let '(status, this) := trackStatus this id "Duplicate skipped" in
    mret (Fulfilled (str status), this)
  else
    try_providers retries delay email id (providers this) 0 this.

(** [send(email, id)] *)
Definition send `{Runtime Ext} (this : t Ext) (email : Email) (id : string)
    : M Ext (Settled * t Ext) :=
  send_with default_retries default_delay this email id.

End EmailService.

(** ** Drivers and reference behaviour used in the statements *)

(** Successive [allow()] calls on one limiter, the clock reading of each
    call given. *)
Fixpoint allow_each (times : list Z) (this : RateLimiter.t)
    : list bool * RateLimiter.t :=
  match times with
  | [] => ([], this)
  | now :: times' =>
    let '(ok, this1) := RateLimiter.allow_at now this in
    let '(oks, this2) := allow_each times' this1 in
    (ok :: oks, this2)
  end.

(** What a retried call to the collaborator [tag] looks like from
    outside when its first invocations fail with [errs] and the last one
    settles as [last]: every failure is followed by a wait of
    [delay * 2^k], [k] counting the retries from the given value, and
    nothing follows the last invocation. *)
Fixpoint backoff_trace (tag : nat) (delay k : Z) (errs : list Error)
    (last : Settled) : list Event :=
  match errs with
  | [] => [Invoked tag last]
  | e :: errs' =>
    Invoked tag (Rejected e) :: Waited (delay * 2 ^ k)
      :: backoff_trace tag delay (k + 1) errs' last
  end.

(** The service after provider [i] has delivered the message [id]: the
    id is marked as sent, the breaker reset, the status stored. *)
Definition sent_by {Ext} (this : EmailService.t Ext) (id : string) (i : nat)
    (breaker : CircuitBreaker.t) (provider : Provider Ext) : EmailService.t Ext :=
  EmailService.set_statusLog
    (<[id := "Sent via " +:+ name provider]> (EmailService.statusLog this))
    (EmailService.set_circuitBreakers
       (<[i := CircuitBreaker.reset breaker]> (EmailService.circuitBreakers this))
       (EmailService.set_sentEmails ({[id]} ∪ EmailService.sentEmails this) this)).

(** The service after provider [i] has used up its retries, the failure
    being recorded at time [now]. *)
Definition failed_at {Ext} (this : EmailService.t Ext) (i : nat)
    (breaker : CircuitBreaker.t) (now : Z) : EmailService.t Ext :=
  EmailService.set_circuitBreakers
    (<[i := CircuitBreaker.mk (CircuitBreaker.failureThreshold breaker)
              (CircuitBreaker.recoveryTime breaker)
              (CircuitBreaker.failures breaker + 1) now]>
       (EmailService.circuitBreakers this))
    this.

(** [bumped breaker breaker']: [breaker'] is [breaker] with one more
    failure counted. *)
Definition bumped (breaker breaker' : CircuitBreaker.t) : Prop :=
  CircuitBreaker.failures breaker' = CircuitBreaker.failures breaker + 1
  ∧ CircuitBreaker.failureThreshold breaker'
    = CircuitBreaker.failureThreshold breaker
  ∧ CircuitBreaker.recoveryTime breaker' = CircuitBreaker.recoveryTime breaker.

(** A provider that never rejects with [undefined] or [null]: whenever
    it fails, [err.message] can be read of what it failed with. *)
Definition never_nullish {Ext} (provider : Provider Ext) : Prop :=
  ∀ email ext,
    match (sendEmail provider email ext).1 with
    | Rejected err => nullish err = false
    | Fulfilled _ => True
    end.

(** The states a service goes through: [sends this this'] when [this']
    is [this] after some sequence of [send] calls, each started in an
    arbitrary outside world. *)
Inductive sends `{Runtime Ext} : EmailService.t Ext → EmailService.t Ext → Prop :=
| sends_refl this : sends this this
| sends_step this this' email id ext :
    sends this this' →
    sends this (EmailService.send this' email id ext).1.1.2.

(** The states of a service built by [new EmailService(providers)] and
    used through [send] only. *)
Definition reachable `{Runtime Ext} (this : EmailService.t Ext) : Prop :=
  ∃ providers, sends (EmailService.constructor providers) this.

(** The two arrays of the service have one breaker per provider. *)
Definition consistent {Ext} (this : EmailService.t Ext) : Prop :=
  length (EmailService.circuitBreakers this)
  = length (EmailService.providers this).

(** The four statuses [send] hands back. *)
Definition terminal_outcome {Ext} (this : EmailService.t Ext) (status : string) : Prop :=
  status = "Rate limited"
  ∨ status = "Duplicate skipped"
  ∨ status = "All providers failed"
  ∨ ∃ provider, provider ∈ EmailService.providers this
                ∧ status = "Sent via " +:+ name provider.

(** ** A concrete runtime for the examples *)

(** The outside world is a clock in milliseconds: reading it takes one
    millisecond, a timeout takes what it says, and [Math.random()] yields
    0, so that a mock provider fails only when told to. *)
#[export] Instance clock_runtime : Runtime Z := {|
  date_now := λ t, (t, t + 1);
  math_random := λ t, (0%Q, t);
  set_timeout := λ ms t, t + ms;
|}.

Definition ProviderA : MockEmailProvider.t := MockEmailProvider.new "ProviderA".
Definition ProviderB : MockEmailProvider.t := MockEmailProvider.new "ProviderB".

(** Provider A with [shouldFail = true]. *)
Definition ProviderA_down : MockEmailProvider.t :=
  MockEmailProvider.mk "ProviderA" true.

Definition hello : Email := mkEmail "user0@example.com" "Hello".

(** [new EmailService([provider1, provider2])] with provider A down. *)
Definition service : EmailService.t Z :=
  EmailService.constructor
    [MockEmailProvider.provider ProviderA_down;
     MockEmailProvider.provider ProviderB].

(** A service whose two providers are both down. *)
Definition service_down : EmailService.t Z :=
  EmailService.constructor
    [MockEmailProvider.provider ProviderA_down;
     MockEmailProvider.provider (MockEmailProvider.mk "ProviderB" true)].

(** That service after a first [send] at time 0. *)
Definition service_sent : EmailService.t Z :=
  (EmailService.send service hello "email-0" 0).1.1.2.

(** Three failures, a look at the breaker, a success and two more
    failures. *)
Definition success_then_two_failures : list CircuitBreaker.method :=
  [CircuitBreaker.RecordFailure; CircuitBreaker.RecordFailure;
   CircuitBreaker.RecordFailure; CircuitBreaker.Allow;
   CircuitBreaker.Reset; CircuitBreaker.RecordFailure;
   CircuitBreaker.RecordFailure].

(** That service with the limiter's window full. *)
Definition service_full : EmailService.t Z :=
  EmailService.set_rateLimiter (RateLimiter.mk 5 10000 [1; 2; 3; 4; 5])
    service_sent.

(** [new EmailService([provider1, provider2])] with both providers up. *)
Definition service_up : EmailService.t Z :=
  EmailService.constructor
    [MockEmailProvider.provider ProviderA;
     MockEmailProvider.provider ProviderB].

(** The service with provider A's circuit open. *)
Definition service_tripped : EmailService.t Z :=
  EmailService.set_circuitBreakers
    [CircuitBreaker.mk 3 10000 7 5000; CircuitBreaker.default] service.

(** A breaker with seven failures, the last one at time 5000. *)
Definition tripped : CircuitBreaker.t := CircuitBreaker.mk 3 10000 7 5000.

(** A provider whose promise is rejected without a reason:
    [{ name: "ProviderA", sendEmail: () => Promise.reject() }]. *)
Definition ProviderA_rejecting : Provider Z :=
  mkProvider "ProviderA" (λ _ ext, (Rejected thrown_undefined, ext)).

(** [new EmailService([providerA, provider2])] with that provider first. *)
Definition service_rejecting : EmailService.t Z :=
  EmailService.constructor
    [ProviderA_rejecting; MockEmailProvider.provider ProviderB].

(** ** Drivers for the further properties *)

(** The clock readings of the calls that [allow()] admitted, given the
    readings of all the calls and the answers. *)
Fixpoint admitted (times : list Z) (oks : list bool) : list Z :=
  match times, oks with
  | t :: times', ok :: oks' =>
    if ok then t :: admitted times' oks' else admitted times' oks'
  | _, _ => []
  end.

(** [in_window interval now t]: a call at time [t] falls in the window
    of length [interval] that ends at [now]. *)
Definition in_window (interval now t : Z) : Prop :=
  now - t < interval ∧ t ≤ now.

#[export] Instance in_window_dec (interval now t : Z) :
  Decision (in_window interval now t) :=
  and_dec (decide (now - t < interval)) (decide (t ≤ now)).

(** Method calls on one breaker, one after the other. *)
Fixpoint breaker_calls `{Runtime Ext} (ms : list CircuitBreaker.method)
    (this : CircuitBreaker.t) : M Ext CircuitBreaker.t :=
  match ms with
  | [] => mret this
  | m :: ms' =>
    this1 ← CircuitBreaker.after m this;
    breaker_calls ms' this1
  end.

(** The failures recorded since the last [reset()], starting from a
    count of [n]. *)
Fixpoint failures_since_reset (ms : list CircuitBreaker.method) (n : Z) : Z :=
  match ms with
  | [] => n
  | CircuitBreaker.Allow :: ms' => failures_since_reset ms' n
  | CircuitBreaker.RecordFailure :: ms' => failures_since_reset ms' (n + 1)
  | CircuitBreaker.Reset :: ms' => failures_since_reset ms' 0
  end.

(** [history this log this']: [this'] is [this] after the [send] calls
    listed in [log], oldest first, each with its id and what it returned;
    every call starts in an arbitrary outside world. *)
Inductive history `{Runtime Ext} :
    EmailService.t Ext → list (string * Settled) → EmailService.t Ext → Prop :=
| history_nil this : history this [] this
| history_snoc this log this' email id ext :
    history this log this' →
    history this
      (log ++ [(id, (EmailService.send this' email id ext).1.1.1)])
      (EmailService.send this' email id ext).1.1.2.

(** What the calls for [id] returned, oldest first; a call that threw
    returned nothing. *)
Definition returned_for (id : string) (log : list (string * Settled)) : list Value :=
  omap (λ entry,
          if decide (entry.1 = id) then
            match entry.2 with
            | Fulfilled v => Some v
            | Rejected _ => None
            end
          else None) log.

(** The sum of a list of delays. *)
Definition total (ms : list Z) : Z := foldr Z.add 0 ms.

(** What a run wrote to the console, in order. *)
Definition logged (evs : list Event) : list (string * string) :=
  omap (λ e, match e with Logged line detail => Some (line, detail) | _ => None end)
       evs.

(** ** The fallback procedure *)


(** [unsuccessful e]: the event [e] is not an invocation that
    succeeded. *)
Definition unsuccessful (e : Event) : Prop :=
  match e with
  | Invoked _ r => is_rejected r = true
  | Waited _ | Logged _ _ => True
  end.

(** Fallback in list order, as seen from outside.  The loop starts at
    index [from] of [providers] and retries each call up to [retries]
    times; [before] and [after] are the breakers before and after it,
    [r] is what it returns, [evs] the events it caused, and [winner] the
    index of the provider that delivered, if any. *)
Definition fallback_order {Ext} (retries : Z) (from : nat)
    (providers : list (Provider Ext)) (before after : list CircuitBreaker.t)
    (r : Settled) (evs : list Event) (winner : option nat) : Prop :=
  let calls := invocations evs in
  (* providers are invoked in list order, from [from] on *)
  StronglySorted le calls
  ∧ Forall (λ j, from ≤ j < length providers)%nat calls
  (* a provider that is not invoked keeps its breaker as it is *)
  ∧ (∀ j, j ∉ calls → after !! j = before !! j)
  (* an invoked provider other than the winner has used up its retries:
     it was invoked [retries] times and its breaker counts one more
     failure *)
  ∧ (∀ j breaker,
       j ∈ calls → winner ≠ Some j → before !! j = Some breaker →
       length (filter (λ k, k = j) calls) = Z.to_nat retries
       ∧ ∃ breaker', after !! j = Some breaker' ∧ bumped breaker breaker')
  (* the winner's successful invocation is the last event and the only
     invocation that succeeded; no provider after the winner is invoked;
     the winner names the status and has its count at zero.  Without a
     winner no invocation succeeded and all providers have failed *)
  ∧ match winner with
    | Some w =>
      ∃ provider breaker' v evs0,
        providers !! w = Some provider
        ∧ r = Fulfilled (str ("Sent via " +:+ name provider))
        ∧ evs = evs0 ++ [Invoked w (Fulfilled v)]
        ∧ Forall unsuccessful evs0
        ∧ Forall (λ j, j ≤ w)%nat calls
        ∧ after !! w = Some breaker'
        ∧ CircuitBreaker.failures breaker' = 0
    | None =>
      r = Fulfilled (str "All providers failed")
      ∧ Forall unsuccessful evs
    end.

(** ** The self-executing test block *)

(** How [console.log] prints the value a [send] returned. *)
Definition show (v : Value) : string :=
  match v with
  | str s => s
  | undefined => "undefined"
  end.

(** The id and the message of round [i]: the template literals
    [`email-${i}`] and [`user${i}@example.com`]. *)
Definition test_id (i : nat) : string := "email-" +:+ pretty i.

Definition test_email (i : nat) : Email :=
  mkEmail ("user" +:+ pretty i +:+ "@example.com") "Hello".

(** The loop [for (let i = 0; i < 10; i++)] from a given [i], [left]
    counting the rounds that remain.  The service is handed back for the
    statements; the block itself returns nothing. *)
Fixpoint main_loop `{Runtime Ext} (left i : nat) (service : EmailService.t Ext)
    : M Ext (Settled * EmailService.t Ext) :=
  match left with
  | O => mret (Fulfilled undefined, service)
  | S left' =>
    '(result, service) ← EmailService.send service (test_email i) (test_id i);
    match result with
    | Rejected err => mret (Rejected err, service)
    | Fulfilled v =>
      _ ← console_log (test_id i) (show v);
      main_loop left' (S i) service
    end
  end.

(** The block [(async () => { ... })()]. *)
Definition main `{Runtime Ext} : M Ext (Settled * EmailService.t Ext) :=
  let provider1 := MockEmailProvider.new "ProviderA" in
  let provider2 := MockEmailProvider.new "ProviderB" in
  let service :=
    EmailService.constructor
      [MockEmailProvider.provider provider1;
       MockEmailProvider.provider provider2] in
  main_loop 10 0 service.

(** The console lines of a run that are not reports of a failed
    provider. *)
Definition printed (evs : list Event) : list (string * string) :=
  filter (λ line, String.prefix "[LOG]" line.1 = false) (logged evs).

(** * Properties *)

(** ** Concrete runs *)

(** Provider A is down: three invocations, waits of 1000 and 2000 ms
    between them, and the last error is thrown. *)
Example retryWithBackoff_ProviderA_down :
  EmailService.retryWithBackoff
    (call 0 (MockEmailProvider.sendEmail ProviderA_down hello)) 3 500 0
  = (Rejected (mkError "ProviderA failed"), 3000,
     [Invoked 0 (Rejected (mkError "ProviderA failed")); Waited 1000;
      Invoked 0 (Rejected (mkError "ProviderA failed")); Waited 2000;
      Invoked 0 (Rejected (mkError "ProviderA failed"))]).
Proof. reflexivity. Qed.

(** The first [send]: A fails three times and is logged, B delivers. *)
Example send_falls_back_to_ProviderB :
  let '(r, this', _, evs) := EmailService.send service hello "email-0" 0 in
  r = Fulfilled (str "Sent via ProviderB")
  ∧ evs = [Invoked 0 (Rejected (mkError "ProviderA failed")); Waited 1000;
           Invoked 0 (Rejected (mkError "ProviderA failed")); Waited 2000;
           Invoked 0 (Rejected (mkError "ProviderA failed"));
           Logged "[LOG] Provider ProviderA failed:" "ProviderA failed";
           Invoked 1 (Fulfilled (str "ProviderB sent email to user0@example.com"))]
  ∧ CircuitBreaker.failures <$> EmailService.circuitBreakers this' = [1; 0]
  ∧ EmailService.getStatus this' "email-0" = str "Sent via ProviderB".
Proof. vm_compute. repeat split; reflexivity. Qed.

(** Both providers throw on every invocation: each is invoked three
    times and counts one failure, and the call returns a status. *)
Example send_all_providers_down :
  let '(r, this', _, evs) := EmailService.send service_down hello "email-0" 0 in
  r = Fulfilled (str "All providers failed")
  ∧ invocations evs = [0; 0; 0; 1; 1; 1]%nat
  ∧ delays evs = [1000; 2000; 1000; 2000]
  ∧ CircuitBreaker.failures <$> EmailService.circuitBreakers this' = [1; 1]
  ∧ EmailService.getStatus this' "email-0" = str "All providers failed".
Proof. vm_compute. repeat split; reflexivity. Qed.

(** Provider A's promise is rejected with [undefined]: after the three
    attempts [send] itself is rejected, with the [TypeError] of reading
    [err.message]; nothing is logged, no breaker counts a failure, B is
    not tried and no status is stored. *)
Example send_after_undefined_rejection :
  let '(r, this', _, evs) := EmailService.send service_rejecting hello "email-0" 0 in
  r = Rejected (mkError "Cannot read properties of undefined (reading 'message')")
  ∧ evs = [Invoked 0 (Rejected thrown_undefined); Waited 1000;
           Invoked 0 (Rejected thrown_undefined); Waited 2000;
           Invoked 0 (Rejected thrown_undefined)]
  ∧ CircuitBreaker.failures <$> EmailService.circuitBreakers this' = [0; 0]
  ∧ EmailService.getStatus this' "email-0" = undefined.
Proof. vm_compute. repeat split; reflexivity. Qed.

(** Five calls per ten seconds: the sixth call in the window is refused,
    a call ten seconds after the first one is admitted again. *)
Example sixth_call_refused :
  (allow_each [0; 1; 2; 3; 4; 5; 9999; 10000] (RateLimiter.new 5 10000)).1
  = [true; true; true; true; true; false; false; true].
Proof. reflexivity. Qed.

(** ** Running computations *)

Lemma Date_now_run `{Runtime Ext} (ext : Ext) :
  Date_now ext = ((date_now ext).1, (date_now ext).2, []).
Proof. unfold Date_now. by destruct (date_now ext). Qed.

(** ** RateLimiter *)

Lemma RateLimiter_allow_run `{Runtime Ext} (this : RateLimiter.t) (ext : Ext) :
  RateLimiter.allow this ext
  = (RateLimiter.allow_at (date_now ext).1 this, (date_now ext).2, []).
Proof.
  unfold RateLimiter.allow, mbind, mret, M_bind, M_ret.
  by rewrite Date_now_run.
Qed.

Lemma allow_at_config (now : Z) (this : RateLimiter.t) :
  RateLimiter.limit (RateLimiter.allow_at now this).2 = RateLimiter.limit this
  ∧ RateLimiter.interval (RateLimiter.allow_at now this).2
    = RateLimiter.interval this.
Proof. unfold RateLimiter.allow_at. by case_match. Qed.

Lemma allow_at_timestamps (now : Z) (this : RateLimiter.t) :
  let kept := filter (λ ts, now - ts < RateLimiter.interval this)
                     (RateLimiter.timestamps this) in
  RateLimiter.timestamps (RateLimiter.allow_at now this).2
  = if (RateLimiter.allow_at now this).1 then kept ++ [now] else kept.
Proof. unfold RateLimiter.allow_at. by case_match. Qed.

Lemma allow_at_admits (now : Z) (this : RateLimiter.t) :
  (RateLimiter.allow_at now this).1 = true
  ↔ Z.of_nat (length (filter (λ ts, now - ts < RateLimiter.interval this)
                             (RateLimiter.timestamps this)))
    < RateLimiter.limit this.
Proof.
  unfold RateLimiter.allow_at.
  destruct (Z.ltb_spec
    (Z.of_nat (length (filter (λ ts, now - ts < RateLimiter.interval this)
                              (RateLimiter.timestamps this))))
    (RateLimiter.limit this)); simpl; split; (done || lia).
Qed.

Lemma sublist_filter_all {A} (P : A → Prop) `{!∀ x, Decision (P x)} (l k : list A) :
  l `sublist_of` k → Forall P l → l `sublist_of` filter P k.
Proof.
  induction 1 as [|x l k _ IH|x l k _ IH]; intros HP.
  - constructor.
  - apply Forall_cons in HP as [Hx Hl].
    rewrite filter_cons_True by done. constructor. by apply IH.
  - rewrite filter_cons. case_decide; [constructor|]; by apply IH.
Qed.

(** Admitted calls that all fall in the window ending at [now] are all
    still recorded after the last of them. *)
Lemma allow_each_recorded (now : Z) (times : list Z) :
  ∀ (this : RateLimiter.t) (seen : list Z),
    Forall (λ t, t ≤ now ∧ now - t < RateLimiter.interval this) (seen ++ times) →
    seen `sublist_of` RateLimiter.timestamps this →
    Forall (λ ok, ok = true) (allow_each times this).1 →
    (seen ++ times) `sublist_of` RateLimiter.timestamps (allow_each times this).2
    ∧ RateLimiter.limit (allow_each times this).2 = RateLimiter.limit this
    ∧ RateLimiter.interval (allow_each times this).2 = RateLimiter.interval this.
Proof.
  induction times as [|t times IH]; intros this seen Hwin Hseen Hok; simpl in *.
  - by rewrite app_nil_r.
  - destruct (RateLimiter.allow_at t this) as [ok this1] eqn:Hstep.
    destruct (allow_each times this1) as [oks this2] eqn:Hrest.
    simpl in *. apply Forall_cons in Hok as [-> Hoks].
    pose proof (allow_at_config t this) as [Hlim Hint].
    pose proof (allow_at_timestamps t this) as Hts.
    rewrite Hstep in Hlim, Hint, Hts. simpl in *.
    specialize (IH this1 (seen ++ [t])).
    rewrite Hrest in IH. simpl in IH. rewrite <- app_assoc in IH. simpl in IH.
    rewrite Hint, Hlim in IH.
    apply IH; [done| |done].
    rewrite Hts. apply sublist_app; [|done].
    apply sublist_filter_all; [done|].
    apply Forall_app in Hwin as [Hs Ht].
    apply Forall_cons in Ht as [[Ht _] _].
    eapply Forall_impl; [exact Hs|]. simpl. intros x [? ?]. lia.
Qed.

(** C3. [allow()] reads the clock once, keeps the timestamps younger
    than the interval, and admits the call, recording its time at the
    end, exactly when fewer than [limit] are kept; a refused call records
    nothing.  Hence once [limit] calls were admitted at times within one
    interval before [now], the call at [now] is refused; and when every
    recorded timestamp is at least one interval old, the call is admitted
    (for a positive limit). *)
Theorem RateLimiter_allow_window `{Runtime Ext} (this : RateLimiter.t) :
  (∀ ext : Ext,
     RateLimiter.allow this ext
     = (RateLimiter.allow_at (date_now ext).1 this, (date_now ext).2, []))
  ∧ (∀ now,
       let kept := filter (λ ts, now - ts < RateLimiter.interval this)
                          (RateLimiter.timestamps this) in
       let '(admitted, this') := RateLimiter.allow_at now this in
       (admitted = true ↔ Z.of_nat (length kept) < RateLimiter.limit this)
       ∧ RateLimiter.timestamps this' = (if admitted then kept ++ [now] else kept)
       ∧ RateLimiter.limit this' = RateLimiter.limit this
       ∧ RateLimiter.interval this' = RateLimiter.interval this)
  ∧ (∀ times now,
       Z.of_nat (length times) = RateLimiter.limit this →
       Forall (λ t, t ≤ now ∧ now - t < RateLimiter.interval this) times →
       Forall (λ ok, ok = true) (allow_each times this).1 →
       (RateLimiter.allow_at now (allow_each times this).2).1 = false)
  ∧ (∀ now,
       0 < RateLimiter.limit this →
       Forall (λ ts, RateLimiter.interval this ≤ now - ts)
              (RateLimiter.timestamps this) →
       (RateLimiter.allow_at now this).1 = true).
Proof.
  split; [intros; apply RateLimiter_allow_run|].
  split.
  { intros now kept.
    pose proof (allow_at_admits now this) as Hadm.
    pose proof (allow_at_timestamps now this) as Hts.
    pose proof (allow_at_config now this) as [Hlim Hint].
    destruct (RateLimiter.allow_at now this) as [admitted this']. by simpl in *. }
  split.
  { intros times now Hlen Hwin Hok.
    destruct (allow_each_recorded now times this [] Hwin (sublist_nil_l _) Hok)
      as (Hsub & Hlim & Hint). simpl in Hsub.
    apply not_true_is_false. rewrite allow_at_admits, Hlim, Hint.
    assert (times `sublist_of`
              filter (λ ts, now - ts < RateLimiter.interval this)
                     (RateLimiter.timestamps (allow_each times this).2)) as Hkept.
    { apply sublist_filter_all; [done|].
      eapply Forall_impl; [exact Hwin|]. simpl. intros x [? ?]. lia. }
    apply sublist_length in Hkept. lia. }
  intros now Hpos Hold. apply allow_at_admits.
  assert (filter (λ ts, now - ts < RateLimiter.interval this)
                 (RateLimiter.timestamps this) = []) as ->; [|simpl; lia].
  induction Hold as [|ts l Hts _ IH]; [done|].
  rewrite filter_cons_False by lia. done.
Qed.

Lemma RateLimiter_allow_window_witness :
  (allow_each [10; 20] (RateLimiter.new 2 100)).1 = [true; true]
  ∧ (RateLimiter.allow_at 50 (allow_each [10; 20] (RateLimiter.new 2 100)).2).1
    = false
  ∧ (RateLimiter.allow_at 120 (allow_each [10; 20] (RateLimiter.new 2 100)).2).1
    = true.
Proof.
  split; [reflexivity|]. split.
  - apply (RateLimiter_allow_window (Ext := Z) (RateLimiter.new 2 100)).
    + reflexivity.
    + repeat constructor; simpl; lia.
    + repeat constructor.
  - apply (RateLimiter_allow_window (Ext := Z)
             (allow_each [10; 20] (RateLimiter.new 2 100)).2).
    + simpl. lia.
    + repeat constructor; simpl; lia.
Defined.

(** ** CircuitBreaker *)

Lemma CircuitBreaker_allow_run `{Runtime Ext} (this : CircuitBreaker.t) (ext : Ext) :
  CircuitBreaker.allow this ext
  = if CircuitBreaker.failureThreshold this <=? CircuitBreaker.failures this
    then (negb ((date_now ext).1 - CircuitBreaker.lastFailureTime this
                <? CircuitBreaker.recoveryTime this),
          (date_now ext).2, [])
    else (true, ext, []).
Proof.
  unfold CircuitBreaker.allow. case_match; [|done].
  unfold mbind, mret, M_bind, M_ret. by rewrite Date_now_run.
Qed.

Lemma CircuitBreaker_recordFailure_run `{Runtime Ext}
    (this : CircuitBreaker.t) (ext : Ext) :
  CircuitBreaker.recordFailure this ext
  = (CircuitBreaker.mk (CircuitBreaker.failureThreshold this)
       (CircuitBreaker.recoveryTime this) (CircuitBreaker.failures this + 1)
       (date_now ext).1,
     (date_now ext).2, []).
Proof.
  unfold CircuitBreaker.recordFailure, mbind, mret, M_bind, M_ret.
  by rewrite Date_now_run.
Qed.

Lemma CircuitBreaker_allow_quiet `{Runtime Ext} (this : CircuitBreaker.t) (ext : Ext) :
  (CircuitBreaker.allow this ext).2 = [].
Proof. rewrite CircuitBreaker_allow_run. by case_match. Qed.

Lemma CircuitBreaker_allow_closed `{Runtime Ext} (this : CircuitBreaker.t) (ext : Ext) :
  CircuitBreaker.failures this < CircuitBreaker.failureThreshold this →
  CircuitBreaker.allow this ext = (true, ext, []).
Proof.
  intros Hlt. rewrite CircuitBreaker_allow_run.
  by destruct (Z.leb_spec (CircuitBreaker.failureThreshold this)
                          (CircuitBreaker.failures this)); [lia|].
Qed.

Lemma CircuitBreaker_allow_false `{Runtime Ext} (this : CircuitBreaker.t) (ext : Ext) :
  (CircuitBreaker.allow this ext).1.1 = false ↔
  CircuitBreaker.failureThreshold this ≤ CircuitBreaker.failures this
  ∧ (date_now ext).1 - CircuitBreaker.lastFailureTime this
    < CircuitBreaker.recoveryTime this.
Proof.
  rewrite CircuitBreaker_allow_run.
  destruct (Z.leb_spec (CircuitBreaker.failureThreshold this)
                       (CircuitBreaker.failures this)); simpl.
  - destruct (Z.ltb_spec ((date_now ext).1 - CircuitBreaker.lastFailureTime this)
                         (CircuitBreaker.recoveryTime this)); simpl;
      split; (done || lia || (intros [_ ?]; lia)).
  - split; [done | lia].
Qed.

(** C4. [allow()] answers false exactly when the failure count has
    reached the threshold and the clock is less than the recovery time
    past the last failure; once the recovery time has passed it answers
    true whatever the count.  No call of [allow()] or [recordFailure()],
    in any outside world, lowers the count ([recordFailure()] adds one);
    [reset()] sets it to zero. *)
Theorem CircuitBreaker_allow_open `{Runtime Ext} (this : CircuitBreaker.t) (ext : Ext) :
  ((CircuitBreaker.allow this ext).1.1 = false ↔
     CircuitBreaker.failureThreshold this ≤ CircuitBreaker.failures this
     ∧ (date_now ext).1 - CircuitBreaker.lastFailureTime this
       < CircuitBreaker.recoveryTime this)
  ∧ (CircuitBreaker.recoveryTime this
       ≤ (date_now ext).1 - CircuitBreaker.lastFailureTime this →
     (CircuitBreaker.allow this ext).1.1 = true)
  ∧ CircuitBreaker.failures (CircuitBreaker.after CircuitBreaker.Allow this ext).1.1
    = CircuitBreaker.failures this
  ∧ CircuitBreaker.failures
      (CircuitBreaker.after CircuitBreaker.RecordFailure this ext).1.1
    = CircuitBreaker.failures this + 1
  ∧ CircuitBreaker.failures (CircuitBreaker.after CircuitBreaker.Reset this ext).1.1
    = 0
  ∧ (∀ m, m ≠ CircuitBreaker.Reset →
       CircuitBreaker.failures this
       ≤ CircuitBreaker.failures (CircuitBreaker.after m this ext).1.1).
Proof.
  assert (CircuitBreaker.failures
            (CircuitBreaker.after CircuitBreaker.Allow this ext).1.1
          = CircuitBreaker.failures this) as Hallow.
  { simpl. unfold mbind, mret, M_bind, M_ret.
    by destruct (CircuitBreaker.allow this ext) as [[? ?] ?]. }
  assert (CircuitBreaker.failures
            (CircuitBreaker.after CircuitBreaker.RecordFailure this ext).1.1
          = CircuitBreaker.failures this + 1) as Hfail.
  { simpl. by rewrite CircuitBreaker_recordFailure_run. }
  split; [apply CircuitBreaker_allow_false|].
  split.
  { intros Hpast. apply not_false_is_true.
    rewrite CircuitBreaker_allow_false. lia. }
  split; [done|]. split; [done|]. split; [done|].
  intros [] Hm; [lia|lia|done].
Qed.

Lemma CircuitBreaker_allow_open_witness :
  (CircuitBreaker.allow tripped 14999).1.1 = false
  ∧ (CircuitBreaker.allow tripped 15000).1.1 = true
  ∧ CircuitBreaker.failures
      (CircuitBreaker.after CircuitBreaker.Allow tripped 15000).1.1 = 7.
Proof.
  split; [|split].
  - apply (CircuitBreaker_allow_open tripped 14999). simpl. lia.
  - apply (CircuitBreaker_allow_open tripped 15000). simpl. lia.
  - apply (CircuitBreaker_allow_open tripped 15000).
Defined.

(** ** retryWithBackoff *)

(** The countdown of [retry_loop] is only a bound: from [retries -
    attempt] on, more of it changes nothing, so the loop always ends by
    its own condition, [return] or [throw]. *)
Lemma retry_loop_enough `{Runtime Ext} (fn : M Ext Settled) (retries delay : Z) :
  ∀ (left left' : nat) (attempt : Z) (ext : Ext),
    (Z.to_nat (retries - attempt) ≤ left)%nat →
    (Z.to_nat (retries - attempt) ≤ left')%nat →
    EmailService.retry_loop left fn retries delay attempt ext
    = EmailService.retry_loop left' fn retries delay attempt ext.
Proof.
  induction left as [|left IH]; intros left' attempt ext Hl Hl'.
  - destruct left' as [|left']; [done|]. simpl.
    destruct (Z.ltb_spec attempt retries); [lia|done].
  - destruct left' as [|left']; simpl.
    { destruct (Z.ltb_spec attempt retries); [lia|done]. }
    destruct (Z.ltb_spec attempt retries); [|done].
    unfold mbind, M_bind. destruct (fn ext) as [[[v|e] ext1] evs1]; [done|].
    destruct (Z.leb_spec retries (attempt + 1)); [done|].
    unfold sleep. by rewrite (IH left') by lia.
Qed.

Lemma retryWithBackoff_none `{Runtime Ext} (fn : M Ext Settled)
    (retries delay : Z) (ext : Ext) :
  retries ≤ 0 →
  EmailService.retryWithBackoff fn retries delay ext
  = (Fulfilled undefined, ext, []).
Proof.
  intros Hle. unfold EmailService.retryWithBackoff.
  destruct (Z.to_nat retries) eqn:Hn; [done|]. simpl.
  by destruct (Z.ltb_spec 0 retries); [lia|].
Qed.

Lemma invocations_backoff_trace (tag : nat) (delay : Z) (last : Settled)
    (errs : list Error) :
  ∀ k, invocations (backoff_trace tag delay k errs last)
       = replicate (S (length errs)) tag.
Proof.
  induction errs as [|e errs IH]; intros k; [done|].
  simpl. unfold invocations in *. simpl. by rewrite IH.
Qed.

Lemma logged_backoff_trace (tag : nat) (delay : Z) (last : Settled)
    (errs : list Error) :
  ∀ k, logged (backoff_trace tag delay k errs last) = [].
Proof. induction errs as [|e errs IH]; intros k; [done|]. apply IH. Qed.

Lemma delays_backoff_trace (tag : nat) (delay : Z) (last : Settled)
    (errs : list Error) :
  ∀ k, delays (backoff_trace tag delay k errs last)
       = (λ j, delay * 2 ^ j) <$> seqZ k (Z.of_nat (length errs)).
Proof.
  induction errs as [|e errs IH]; intros k; [done|].
  cbn [backoff_trace length]. unfold delays in *. cbn [omap list_omap].
  rewrite IH, Nat2Z.inj_succ, (seqZ_cons k) by lia.
  by replace (Z.pred (Z.succ (Z.of_nat (length errs))))
    with (Z.of_nat (length errs)) by lia.
Qed.

(** From a positive base delay, each wait is shorter than all the waits
    after it. *)
Lemma backoff_delays_increasing (delay : Z) (n : nat) :
  0 < delay →
  ∀ k, 0 ≤ k →
    StronglySorted Z.lt ((λ j, delay * 2 ^ j) <$> seqZ k (Z.of_nat n)).
Proof.
  intros Hpos. induction n as [|n IH]; intros k Hk; [constructor|].
  rewrite Nat2Z.inj_succ, seqZ_cons by lia.
  replace (Z.pred (Z.succ (Z.of_nat n))) with (Z.of_nat n) by lia.
  rewrite fmap_cons. constructor; [apply IH; lia|].
  apply Forall_fmap, Forall_forall. intros j Hj. simpl.
  apply elem_of_seqZ in Hj.
  apply Z.mul_lt_mono_pos_l; [done|].
  apply Z.pow_lt_mono_r; lia.
Qed.

Lemma retry_loop_trace `{Runtime Ext} (tag : nat) (f : Async Ext)
    (retries delay : Z) :
  ∀ (left : nat) (attempt : Z) (ext : Ext),
    attempt < retries →
    (Z.to_nat (retries - attempt) ≤ left)%nat →
    ∃ errs,
      (EmailService.retry_loop left (call tag f) retries delay attempt ext).2
      = backoff_trace tag delay (attempt + 1) errs
          (EmailService.retry_loop left (call tag f) retries delay attempt ext).1.1
      ∧ attempt + Z.of_nat (length errs) < retries
      ∧ (is_rejected
           (EmailService.retry_loop left (call tag f) retries delay attempt ext).1.1
         = true →
         attempt + Z.of_nat (length errs) + 1 = retries).
Proof.
  induction left as [|left IH]; intros attempt ext Hlt Hleft; [lia|].
  simpl. destruct (Z.ltb_spec attempt retries); [|lia].
  unfold mbind, M_bind, call.
  destruct (f ext) as [[v|e] ext1].
  { exists []. simpl. split; [done|]. split; [lia|done]. }
  destruct (Z.leb_spec retries (attempt + 1)).
  { exists []. simpl. split; [done|]. split; lia. }
  unfold sleep.
  destruct (IH (attempt + 1) (set_timeout (delay * 2 ^ (attempt + 1)) ext1))
    as (errs & Htrace & Hlen & Hrej); [lia|lia|].
  fold (call tag f) in *.
  destruct (EmailService.retry_loop left (call tag f) retries delay (attempt + 1)
              (set_timeout (delay * 2 ^ (attempt + 1)) ext1))
    as [[r ext2] evs2].
  simpl in *. exists (e :: errs). simpl. rewrite Htrace.
  split; [done|]. split; [lia|]. intros Hr. specialize (Hrej Hr). lia.
Qed.

(** C5. With [retries >= 1], a retried call to a collaborator invokes it
    at most [retries] times.  All invocations but the last failed, and
    each of those is followed by a wait of [delay * 2^k] for k = 1, 2,
    ...; the last invocation settles as the whole call does, and nothing
    follows it: a success is returned at once, and a failure is
    propagated only when the [retries] invocations have all failed.  For
    a positive [delay] the waits are strictly increasing. *)
Theorem retryWithBackoff_backoff `{Runtime Ext} (tag : nat) (f : Async Ext)
    (retries delay : Z) (ext : Ext) :
  1 ≤ retries →
  ∃ errs : list Error,
    let '(r, _, evs) :=
      EmailService.retryWithBackoff (call tag f) retries delay ext in
    evs = backoff_trace tag delay 1 errs r
    ∧ length (invocations evs) = S (length errs)
    ∧ Z.of_nat (length (invocations evs)) ≤ retries
    ∧ (is_rejected r = true → Z.of_nat (length (invocations evs)) = retries)
    ∧ delays evs = (λ k, delay * 2 ^ k) <$> seqZ 1 (Z.of_nat (length errs))
    ∧ (0 < delay → StronglySorted Z.lt (delays evs)).
Proof.
  intros Hretries. unfold EmailService.retryWithBackoff.
  destruct (retry_loop_trace tag f retries delay (Z.to_nat retries) 0 ext)
    as (errs & Htrace & Hlen & Hrej); [lia|lia|].
  exists errs.
  destruct (EmailService.retry_loop (Z.to_nat retries) (call tag f) retries delay 0 ext)
    as [[r ext'] evs].
  simpl in *. subst evs.
  rewrite invocations_backoff_trace, delays_backoff_trace, length_replicate.
  split; [done|]. split; [done|]. split; [lia|].
  split; [intros Hr; specialize (Hrej Hr); lia|].
  split; [done|]. intros Hpos. by apply backoff_delays_increasing.
Qed.

Lemma retryWithBackoff_backoff_witness :
  ∃ errs : list Error,
    let '(r, _, evs) :=
      EmailService.retryWithBackoff
        (call 0 (MockEmailProvider.sendEmail ProviderA_down hello)) 3 500 0 in
    evs = backoff_trace 0 500 1 errs r
    ∧ length (invocations evs) = S (length errs)
    ∧ Z.of_nat (length (invocations evs)) ≤ 3
    ∧ (is_rejected r = true → Z.of_nat (length (invocations evs)) = 3)
    ∧ delays evs = (λ k, 500 * 2 ^ k) <$> seqZ 1 (Z.of_nat (length errs))
    ∧ (0 < 500 → StronglySorted Z.lt (delays evs)).
Proof.
  apply (retryWithBackoff_backoff 0
           (MockEmailProvider.sendEmail ProviderA_down hello) 3 500 0).
  lia.
Defined.

(** ** send: one turn of the provider loop *)

Lemma try_providers_nil `{Runtime Ext} (retries delay : Z) (email : Email)
    (id : string) (i : nat) (this : EmailService.t Ext) (ext : Ext) :
  EmailService.try_providers retries delay email id [] i this ext
  = (Fulfilled (str "All providers failed"),
     EmailService.set_statusLog
       (<[id := "All providers failed"]> (EmailService.statusLog this)) this,
     ext, []).
Proof. done. Qed.

Lemma try_providers_cons `{Runtime Ext} (retries delay : Z) (email : Email)
    (id : string) (provider : Provider Ext) (rest : list (Provider Ext))
    (i : nat) (this : EmailService.t Ext) (ext : Ext) :
  EmailService.try_providers retries delay email id (provider :: rest) i this ext
  = match EmailService.circuitBreakers this !! i with
    | None => (Rejected EmailService.breaker_missing, this, ext, [])
    | Some breaker =>
      let '(allowed, ext1, _) := CircuitBreaker.allow breaker ext in
      if allowed then
        let '(r, ext2, evs) :=
          EmailService.retryWithBackoff (call i (sendEmail provider email))
            retries delay ext1 in
        match r with
        | Fulfilled _ =>
          (Fulfilled (str ("Sent via " +:+ name provider)),
           sent_by this id i breaker provider, ext2, evs)
        | Rejected err =>
          match read_message err with
          | inl type_error => (Rejected type_error, this, ext2, evs)
          | inr detail =>
            let '(res, ext3, evs3) :=
              EmailService.try_providers retries delay email id rest (S i)
                (failed_at this i breaker (date_now ext2).1) (date_now ext2).2 in
            (res, ext3,
             evs ++ Logged ("[LOG] Provider " +:+ name provider +:+ " failed:")
                           detail :: evs3)
          end
        end
      else
        EmailService.try_providers retries delay email id rest (S i) this ext1
    end.
Proof.
  cbn [EmailService.try_providers].
  destruct (EmailService.circuitBreakers this !! i) as [breaker|]; [|done].
  unfold mbind at 1. unfold M_bind at 1.
  pose proof (CircuitBreaker_allow_quiet breaker ext) as Hquiet.
  destruct (CircuitBreaker.allow breaker ext) as [[allowed ext1] evs0].
  simpl in Hquiet. subst evs0. destruct allowed; simpl.
  - unfold mbind at 1. unfold M_bind at 1.
    destruct (EmailService.retryWithBackoff _ retries delay ext1)
      as [[[v|err] ext2] evs].
    + unfold mret, M_ret. by rewrite app_nil_r.
    + destruct (read_message err) as [type_error|detail].
      { unfold mret, M_ret. by rewrite app_nil_r. }
      unfold mbind, M_bind, console_log.
      rewrite CircuitBreaker_recordFailure_run.
      unfold failed_at.
      by destruct (EmailService.try_providers _ _ _ _ _ _ _ _) as [[res ext3] evs3].
  - by destruct (EmailService.try_providers _ _ _ _ _ _ _ _) as [[res ext3] evs3].
Qed.

Lemma send_with_run `{Runtime Ext} (retries delay : Z) (this : EmailService.t Ext)
    (email : Email) (id : string) (ext : Ext) :
  EmailService.send_with retries delay this email id ext
  = let '(allowed, limiter) :=
      RateLimiter.allow_at (date_now ext).1 (EmailService.rateLimiter this) in
    let this1 := EmailService.set_rateLimiter limiter this in
    if allowed then
      if decide (id ∈ EmailService.sentEmails this) then
        (Fulfilled (str "Duplicate skipped"),
         EmailService.set_statusLog
           (<[id := "Duplicate skipped"]> (EmailService.statusLog this)) this1,
         (date_now ext).2, [])
      else
        EmailService.try_providers retries delay email id
          (EmailService.providers this) 0 this1 (date_now ext).2
    else
      (Fulfilled (str "Rate limited"),
       EmailService.set_statusLog
         (<[id := "Rate limited"]> (EmailService.statusLog this)) this1,
       (date_now ext).2, []).
Proof.
  unfold EmailService.send_with. unfold mbind at 1. unfold M_bind at 1.
  rewrite RateLimiter_allow_run.
  destruct (RateLimiter.allow_at _ _) as [allowed limiter].
  destruct allowed; simpl; [|done].
  case_decide; [done|].
  by destruct (EmailService.try_providers _ _ _ _ _ _ _ _) as [[res ext3] evs3].
Qed.

(** ** send: what the provider loop leaves behind *)

Lemma read_message_nullish (err : Error) :
  nullish err = true ↔ ∃ type_error, read_message err = inl type_error.
Proof.
  destruct err; simpl; split; try done; eauto; by intros [? ?].
Qed.

Lemma read_message_value (err : Error) :
  nullish err = false ↔ ∃ detail, read_message err = inr detail.
Proof.
  destruct err; simpl; split; try done; eauto; by intros [? ?].
Qed.

(** A retried call fails only with what one of its invocations failed
    with. *)
Lemma retry_loop_rejection `{Runtime Ext} (tag : nat) (f : Async Ext)
    (retries delay : Z) (err : Error) :
  ∀ (left : nat) (attempt : Z) (ext : Ext),
    (EmailService.retry_loop left (call tag f) retries delay attempt ext).1.1
    = Rejected err →
    ∃ x, (f x).1 = Rejected err.
Proof.
  induction left as [|left IH]; intros attempt ext; [done|].
  simpl. destruct (attempt <? retries); [|done].
  unfold mbind, M_bind, call.
  destruct (f ext) as [[v|e] ext1] eqn:Hf; [done|].
  destruct (retries <=? attempt + 1).
  { simpl. intros [= ->]. exists ext. by rewrite Hf. }
  unfold sleep. fold (call tag f).
  specialize (IH (attempt + 1) (set_timeout (delay * 2 ^ (attempt + 1)) ext1)).
  destruct (EmailService.retry_loop left (call tag f) retries delay (attempt + 1) _)
    as [[r ext2] evs2].
  simpl in *. exact IH.
Qed.

(** Whatever the providers do, the loop from index [i] keeps the
    provider list, the limiter and the number of breakers, never removes
    a sent id, and ends in one of four ways: a breaker is missing for one
    of the providers left; one of them was rejected with [undefined] or
    [null], and reading [err.message] threw; all of them failed or were
    skipped; or one of them delivered. *)
Lemma try_providers_outcome `{Runtime Ext} (retries delay : Z) (email : Email)
    (id : string) (rest : list (Provider Ext)) :
  ∀ (i : nat) (this : EmailService.t Ext) (ext : Ext),
    let '(r, this', _, _) :=
      EmailService.try_providers retries delay email id rest i this ext in
    EmailService.providers this' = EmailService.providers this
    ∧ EmailService.rateLimiter this' = EmailService.rateLimiter this
    ∧ length (EmailService.circuitBreakers this')
      = length (EmailService.circuitBreakers this)
    ∧ EmailService.sentEmails this ⊆ EmailService.sentEmails this'
    ∧ ((r = Rejected EmailService.breaker_missing
        ∧ (length (EmailService.circuitBreakers this) < i + length rest)%nat)
       ∨ (∃ provider err type_error x,
            provider ∈ rest
            ∧ (sendEmail provider email x).1 = Rejected err
            ∧ read_message err = inl type_error
            ∧ r = Rejected type_error
            ∧ EmailService.statusLog this' = EmailService.statusLog this
            ∧ EmailService.sentEmails this' = EmailService.sentEmails this)
       ∨ (r = Fulfilled (str "All providers failed")
          ∧ EmailService.statusLog this'
            = <[id := "All providers failed"]> (EmailService.statusLog this)
          ∧ EmailService.sentEmails this' = EmailService.sentEmails this)
       ∨ (∃ provider,
            provider ∈ rest
            ∧ r = Fulfilled (str ("Sent via " +:+ name provider))
            ∧ EmailService.statusLog this'
              = <[id := "Sent via " +:+ name provider]>
                  (EmailService.statusLog this)
            ∧ EmailService.sentEmails this'
              = {[id]} ∪ EmailService.sentEmails this)).
Proof.
  induction rest as [|provider rest IH]; intros i this ext.
  { rewrite try_providers_nil. simpl. repeat split; try done.
    right. right. by left. }
  rewrite try_providers_cons.
  destruct (EmailService.circuitBreakers this !! i) as [breaker|] eqn:Hi.
  2:{ apply lookup_ge_None in Hi. repeat split; try done.
      left. split; [done|]. simpl. lia. }
  destruct (CircuitBreaker.allow breaker ext) as [[allowed ext1] evs0].
  destruct allowed.
  - pose proof (retry_loop_rejection i (sendEmail provider email) retries delay)
      as Hgenuine.
    unfold EmailService.retryWithBackoff.
    destruct (EmailService.retry_loop _ _ retries delay 0 ext1)
      as [[[v|err] ext2] evs] eqn:Hretry.
    + simpl. rewrite length_insert. repeat split; try done; [set_solver|].
      right. right. right. exists provider. repeat split; try done. set_solver.
    + destruct (read_message err) as [type_error|detail] eqn:Hread.
      { destruct (Hgenuine err (Z.to_nat retries) 0 ext1) as [x Hx].
        { by rewrite Hretry. }
        repeat split; try done. right. left.
        exists provider, err, type_error, x. repeat split; try done. set_solver. }
      specialize (IH (S i) (failed_at this i breaker (date_now ext2).1)
                     (date_now ext2).2).
      destruct (EmailService.try_providers _ _ _ _ _ _ _ _)
        as [[[r this'] ext3] evs3].
      simpl in IH. rewrite length_insert in IH.
      destruct IH as (Hp & Hrl & Hlen & Hsent & Hcase).
      repeat split; try done.
      destruct Hcase as [[-> Hlt]|[(p & e & te & x & Hp' & Hx & Hte & -> & Hlog & Hs)
                        |[(-> & Hlog & Hs)|(p & Hp' & -> & Hlog & Hs)]]].
      * left. split; [done|]. simpl. lia.
      * right. left. exists p, e, te, x. repeat split; try done.
        apply elem_of_cons. by right.
      * right. right. by left.
      * right. right. right. exists p. repeat split; try done.
        apply elem_of_cons. by right.
  - specialize (IH (S i) this ext1).
    destruct (EmailService.try_providers _ _ _ _ _ _ _ _)
      as [[[r this'] ext3] evs3].
    destruct IH as (Hp & Hrl & Hlen & Hsent & Hcase).
    repeat split; try done.
    destruct Hcase as [[-> Hlt]|[(p & e & te & x & Hp' & Hx & Hte & -> & Hlog & Hs)
                      |[(-> & Hlog & Hs)|(p & Hp' & -> & Hlog & Hs)]]].
    + left. split; [done|]. simpl. lia.
    + right. left. exists p, e, te, x. repeat split; try done.
      apply elem_of_cons. by right.
    + right. right. by left.
    + right. right. right. exists p. repeat split; try done.
      apply elem_of_cons. by right.
Qed.

Lemma sent_via_distinct (n : string) :
  "Rate limited" ≠ "Sent via " +:+ n
  ∧ "Duplicate skipped" ≠ "Sent via " +:+ n
  ∧ "All providers failed" ≠ "Sent via " +:+ n.
Proof. repeat split; intros Heq; simpl in Heq; discriminate Heq. Qed.

(** One [send]: the provider list and the number of breakers stay and
    no sent id is forgotten.  The call fails on a missing breaker, or
    fails where [err.message] is read of an [undefined] or [null]
    rejection, storing nothing, or is fulfilled with a status that it has
    stored under [id]; the status says "Sent via" only if [id] is now
    marked as sent. *)
Lemma send_with_outcome `{Runtime Ext} (retries delay : Z)
    (this : EmailService.t Ext) (email : Email) (id : string) (ext : Ext) :
  let '(r, this', _, _) := EmailService.send_with retries delay this email id ext in
  EmailService.providers this' = EmailService.providers this
  ∧ length (EmailService.circuitBreakers this')
    = length (EmailService.circuitBreakers this)
  ∧ EmailService.sentEmails this ⊆ EmailService.sentEmails this'
  ∧ ((r = Rejected EmailService.breaker_missing
      ∧ (length (EmailService.circuitBreakers this)
         < length (EmailService.providers this))%nat)
     ∨ (∃ provider err type_error x,
          provider ∈ EmailService.providers this
          ∧ (sendEmail provider email x).1 = Rejected err
          ∧ read_message err = inl type_error
          ∧ r = Rejected type_error
          ∧ EmailService.statusLog this' = EmailService.statusLog this
          ∧ EmailService.sentEmails this' = EmailService.sentEmails this)
     ∨ ∃ status,
         r = Fulfilled (str status)
         ∧ EmailService.statusLog this'
           = <[id := status]> (EmailService.statusLog this)
         ∧ terminal_outcome this status
         ∧ ((∃ n, status = "Sent via " +:+ n) → id ∈ EmailService.sentEmails this')).
Proof.
  rewrite send_with_run.
  destruct (RateLimiter.allow_at _ _) as [allowed limiter].
  destruct allowed.
  2:{ simpl. repeat split; try done. right. right. exists "Rate limited".
      repeat split; try done; [by left|].
      intros [n Hn]. by destruct (sent_via_distinct n) as (? & _). }
  case_decide as Hsent.
  { simpl. repeat split; try done. right. right. exists "Duplicate skipped".
    repeat split; try done. right. by left. }
  pose proof (try_providers_outcome retries delay email id
                (EmailService.providers this) 0
                (EmailService.set_rateLimiter limiter this) (date_now ext).2) as Hloop.
  destruct (EmailService.try_providers _ _ _ _ _ _ _ _) as [[[r this'] ext3] evs3].
  simpl in Hloop. destruct Hloop as (Hp & _ & Hlen & Hsub & Hcase).
  repeat split; try done.
  destruct Hcase as [[-> Hlt]|[(p & e & te & x & Hp' & Hx & Hte & -> & Hlog & Hs)
                    |[(-> & Hlog & Hs)|(p & Hp' & -> & Hlog & Hs)]]].
  - by left.
  - right. left. by exists p, e, te, x.
  - right. right. exists "All providers failed". repeat split; try done.
    + right. right. by left.
    + intros [n Hn]. by destruct (sent_via_distinct n) as (_ & _ & ?).
  - right. right. exists ("Sent via " +:+ name p). repeat split; try done.
    + right. right. right. by exists p.
    + intros _. rewrite Hs. apply elem_of_union_l. by apply elem_of_singleton.
Qed.

Lemma sends_invariant `{Runtime Ext} (this this' : EmailService.t Ext) :
  sends this this' →
  EmailService.providers this' = EmailService.providers this
  ∧ length (EmailService.circuitBreakers this')
    = length (EmailService.circuitBreakers this)
  ∧ EmailService.sentEmails this ⊆ EmailService.sentEmails this'.
Proof.
  induction 1 as [this|this mid email id ext _ (Hp & Hlen & Hsub)]; [done|].
  pose proof (send_with_outcome EmailService.default_retries
                EmailService.default_delay mid email id ext) as Hstep.
  unfold EmailService.send.
  destruct (EmailService.send_with _ _ _ _ _ _) as [[[r this'] ext'] evs].
  simpl. destruct Hstep as (Hp' & Hlen' & Hsub' & _).
  split; [congruence|]. split; [congruence|]. set_solver.
Qed.

Lemma reachable_consistent `{Runtime Ext} (this : EmailService.t Ext) :
  reachable this → consistent this.
Proof.
  intros [providers Hsends]. apply sends_invariant in Hsends as (Hp & Hlen & _).
  unfold consistent. rewrite Hp, Hlen. simpl. apply length_fmap.
Qed.

Lemma reachable_constructor `{Runtime Ext} (providers : list (Provider Ext)) :
  reachable (EmailService.constructor providers).
Proof. exists providers. constructor. Qed.

(** ** send: a rejection with undefined or null *)

Lemma retry_loop_rejected `{Runtime Ext} (tag : nat) (f : Async Ext)
    (retries delay : Z) :
  (∀ ext, is_rejected (f ext).1 = true) →
  ∀ (left : nat) (attempt : Z) (ext : Ext),
    attempt < retries →
    (Z.to_nat (retries - attempt) ≤ left)%nat →
    is_rejected
      (EmailService.retry_loop left (call tag f) retries delay attempt ext).1.1
    = true.
Proof.
  intros Hf. induction left as [|left IH]; intros attempt ext Hlt Hleft; [lia|].
  simpl. destruct (Z.ltb_spec attempt retries); [|lia].
  unfold mbind, M_bind, call. specialize (Hf ext).
  destruct (f ext) as [[v|e] ext1]; [done|].
  destruct (Z.leb_spec retries (attempt + 1)); [done|].
  unfold sleep. fold (call tag f).
  specialize (IH (attempt + 1) (set_timeout (delay * 2 ^ (attempt + 1)) ext1)).
  destruct (EmailService.retry_loop left (call tag f) retries delay (attempt + 1) _)
    as [[r ext2] evs2].
  simpl in *. apply IH; lia.
Qed.

(** A retried call to a collaborator that always fails with [err] fails
    with [err], after [retries] invocations. *)
Lemma retryWithBackoff_always_rejected_with `{Runtime Ext} (tag : nat)
    (f : Async Ext) (err : Error) (retries delay : Z) (ext : Ext) :
  1 ≤ retries →
  (∀ x, (f x).1 = Rejected err) →
  ∃ ext' errs,
    EmailService.retryWithBackoff (call tag f) retries delay ext
    = (Rejected err, ext', backoff_trace tag delay 1 errs (Rejected err))
    ∧ Z.of_nat (length errs) + 1 = retries.
Proof.
  intros Hretries Hf. unfold EmailService.retryWithBackoff.
  destruct (retry_loop_trace tag f retries delay (Z.to_nat retries) 0 ext)
    as (errs & Htrace & _ & Hcount); [lia|lia|].
  pose proof (retry_loop_rejection tag f retries delay) as Hgenuine.
  assert (∀ x, is_rejected (f x).1 = true) as Hfails.
  { intros x. by rewrite Hf. }
  pose proof (retry_loop_rejected tag f retries delay Hfails
                (Z.to_nat retries) 0 ext) as Hrej.
  destruct (EmailService.retry_loop _ _ _ _ _ _) as [[[v|e] ext'] evs] eqn:Hrun;
    cbn [fst snd] in *; [discriminate Hrej; lia|].
  destruct (Hgenuine e (Z.to_nat retries) 0 ext) as [x Hx]; [by rewrite Hrun|].
  rewrite Hf in Hx. injection Hx as <-.
  exists ext', errs. split; [by rewrite Htrace|]. by apply Hcount.
Qed.

(** An admitted [send] for a new id whose first provider, its breaker
    below the threshold, always rejects with [undefined] or [null]. *)
Lemma send_with_nullish_rejection `{Runtime Ext} (retries delay : Z)
    (this : EmailService.t Ext) (email : Email) (id : string) (ext : Ext)
    (provider : Provider Ext) (rest : list (Provider Ext))
    (breaker : CircuitBreaker.t) (breakers : list CircuitBreaker.t) (err : Error) :
  1 ≤ retries →
  EmailService.providers this = provider :: rest →
  EmailService.circuitBreakers this = breaker :: breakers →
  (RateLimiter.allow (EmailService.rateLimiter this) ext).1.1.1 = true →
  id ∉ EmailService.sentEmails this →
  CircuitBreaker.failures breaker < CircuitBreaker.failureThreshold breaker →
  (∀ x, (sendEmail provider email x).1 = Rejected err) →
  nullish err = true →
  let '(r, this', _, evs) := EmailService.send_with retries delay this email id ext in
  (∃ type_error, read_message err = inl type_error ∧ r = Rejected type_error)
  ∧ invocations evs = replicate (Z.to_nat retries) 0%nat
  ∧ logged evs = []
  ∧ EmailService.circuitBreakers this' = EmailService.circuitBreakers this
  ∧ EmailService.sentEmails this' = EmailService.sentEmails this
  ∧ EmailService.statusLog this' = EmailService.statusLog this.
Proof.
  intros Hretries Hp Hcbs Hadmit Hnew Hclosed Hfail Hnull.
  apply read_message_nullish in Hnull as [type_error Hread].
  rewrite send_with_run.
  rewrite RateLimiter_allow_run in Hadmit. simpl in Hadmit.
  destruct (RateLimiter.allow_at _ _) as [allowed limiter].
  simpl in Hadmit. subst allowed. rewrite decide_False by done.
  rewrite Hp, try_providers_cons.
  cbn [EmailService.circuitBreakers EmailService.set_rateLimiter].
  rewrite Hcbs. cbn [lookup list_lookup].
  rewrite CircuitBreaker_allow_closed by done.
  destruct (retryWithBackoff_always_rejected_with 0 (sendEmail provider email) err
              retries delay (date_now ext).2 Hretries Hfail)
    as (ext2 & errs & -> & Hcount).
  rewrite Hread.
  rewrite invocations_backoff_trace, logged_backoff_trace.
  replace (S (length errs)) with (Z.to_nat retries) by lia.
  split; [by exists type_error|]. repeat split; done.
Qed.

(** C6, where the code departs from it.  The first provider's breaker
    being below its threshold, let that provider always reject with
    [undefined] or [null].  Then an admitted [send] for a new id does
    throw: after the three attempts the [catch] block reads
    [err.message], which raises a [TypeError], and [send] is rejected
    with it.  Nothing is written to the console, no failure is recorded
    on any breaker, nothing is marked as sent and no status is stored. *)
Theorem send_rejects_on_nullish_rejection `{Runtime Ext} (this : EmailService.t Ext)
    (email : Email) (id : string) (ext : Ext)
    (provider : Provider Ext) (rest : list (Provider Ext))
    (breaker : CircuitBreaker.t) (breakers : list CircuitBreaker.t) (err : Error) :
  EmailService.providers this = provider :: rest →
  EmailService.circuitBreakers this = breaker :: breakers →
  (RateLimiter.allow (EmailService.rateLimiter this) ext).1.1.1 = true →
  id ∉ EmailService.sentEmails this →
  CircuitBreaker.failures breaker < CircuitBreaker.failureThreshold breaker →
  (∀ x, (sendEmail provider email x).1 = Rejected err) →
  nullish err = true →
  let '(r, this', _, evs) := EmailService.send this email id ext in
  (∃ type_error, read_message err = inl type_error ∧ r = Rejected type_error)
  ∧ invocations evs = [0; 0; 0]%nat
  ∧ logged evs = []
  ∧ EmailService.circuitBreakers this' = EmailService.circuitBreakers this
  ∧ EmailService.sentEmails this' = EmailService.sentEmails this
  ∧ EmailService.statusLog this' = EmailService.statusLog this
  ∧ EmailService.getStatus this' id = EmailService.getStatus this id.
Proof.
  intros Hp Hcbs Hadmit Hnew Hclosed Hfail Hnull.
  pose proof (send_with_nullish_rejection EmailService.default_retries
                EmailService.default_delay this email id ext provider rest
                breaker breakers err ltac:(done) Hp Hcbs Hadmit Hnew Hclosed
                Hfail Hnull) as Hrun.
  unfold EmailService.send.
  destruct (EmailService.send_with _ _ _ _ _ _) as [[[r this'] ext'] evs].
  destruct Hrun as (Hr & Hcalls & Hquiet & Hbreakers & Hsent & Hlog).
  unfold EmailService.getStatus. rewrite Hlog.
  repeat split; done.
Qed.

Lemma send_rejects_on_nullish_rejection_witness :
  let '(r, this', _, evs) := EmailService.send service_rejecting hello "email-0" 0 in
  (∃ type_error,
     read_message thrown_undefined = inl type_error ∧ r = Rejected type_error)
  ∧ invocations evs = [0; 0; 0]%nat
  ∧ logged evs = []
  ∧ EmailService.circuitBreakers this'
    = EmailService.circuitBreakers service_rejecting
  ∧ EmailService.sentEmails this' = EmailService.sentEmails service_rejecting
  ∧ EmailService.statusLog this' = EmailService.statusLog service_rejecting
  ∧ EmailService.getStatus this' "email-0"
    = EmailService.getStatus service_rejecting "email-0".
Proof.
  refine (send_rejects_on_nullish_rejection service_rejecting hello "email-0" 0
            ProviderA_rejecting [MockEmailProvider.provider ProviderB]
            CircuitBreaker.default [CircuitBreaker.default] thrown_undefined
            _ _ _ _ _ _ _).
  - reflexivity.
  - reflexivity.
  - vm_compute. reflexivity.
  - vm_compute. intros Hin. discriminate Hin.
  - simpl. lia.
  - intros x. reflexivity.
  - reflexivity.
Defined.

(** ** send: the status record *)



(** ** send: idempotency *)

(** A [send] for an id already marked as sent: no provider is called,
    nothing is logged or awaited, breakers and sent ids stay; the limiter
    is consulted and the status overwritten. *)
Lemma send_duplicate `{Runtime Ext} (retries delay : Z) (this : EmailService.t Ext)
    (email : Email) (id : string) (ext : Ext) :
  id ∈ EmailService.sentEmails this →
  let '(allowed, limiter) :=
    RateLimiter.allow_at (date_now ext).1 (EmailService.rateLimiter this) in
  EmailService.send_with retries delay this email id ext
  = (Fulfilled (str (if allowed then "Duplicate skipped" else "Rate limited")),
     EmailService.set_statusLog
       (<[id := if allowed then "Duplicate skipped" else "Rate limited"]>
          (EmailService.statusLog this))
       (EmailService.set_rateLimiter limiter this),
     (date_now ext).2, []).
Proof.
  intros Hsent. rewrite send_with_run.
  destruct (RateLimiter.allow_at _ _) as [allowed limiter].
  destruct allowed; [|done]. by case_decide.
Qed.

(** C1. Once a [send] for [id] has returned "Sent via ...", every later
    [send] for the same id, after any number of other [send] calls and
    in any outside world, invokes no provider and returns "Duplicate
    skipped", or "Rate limited" when the limiter refuses the call first.
    So one id never leads to two successful provider invocations. *)
Theorem send_idempotent `{Runtime Ext} (this : EmailService.t Ext)
    (email : Email) (id n : string) (ext : Ext) :
  (EmailService.send this email id ext).1.1.1 = Fulfilled (str ("Sent via " +:+ n)) →
  ∀ later : EmailService.t Ext,
    sends (EmailService.send this email id ext).1.1.2 later →
    ∀ (email' : Email) (ext' : Ext),
      let '(r, _, _, evs) := EmailService.send later email' id ext' in
      evs = []
      ∧ invocations evs = []
      ∧ (r = Fulfilled (str "Duplicate skipped")
         ∨ r = Fulfilled (str "Rate limited"))
      ∧ ((RateLimiter.allow (EmailService.rateLimiter later) ext').1.1.1 = true →
         r = Fulfilled (str "Duplicate skipped")).
Proof.
  intros Hsent later Hlater email' ext'.
  assert (id ∈ EmailService.sentEmails later) as Hin.
  { apply sends_invariant in Hlater as (_ & _ & Hsub). apply Hsub.
    pose proof (send_with_outcome EmailService.default_retries
                  EmailService.default_delay this email id ext) as Hstep.
    unfold EmailService.send in *.
    destruct (EmailService.send_with _ _ _ _ _ _) as [[[r this'] ext1] evs].
    simpl in *. subst r.
    destruct Hstep as (_ & _ & _ & [[Hr _]|[(p & e & te & x & _ & _ & _ & Hr & _)
                                  |(status & Hr & _ & _ & Hmark)]]);
      [done|done|].
    apply Hmark. exists n. congruence. }
  pose proof (send_duplicate EmailService.default_retries
                EmailService.default_delay later email' id ext' Hin) as Hdup.
  rewrite RateLimiter_allow_run. unfold EmailService.send.
  destruct (RateLimiter.allow_at _ _) as [allowed limiter].
  rewrite Hdup. simpl. destruct allowed; repeat split; auto; done.
Qed.

Lemma send_idempotent_witness :
  (EmailService.send service hello "email-0" 0).1.1.1
  = Fulfilled (str ("Sent via " +:+ "ProviderB"))
  ∧ let '(r, _, _, evs) :=
      EmailService.send (EmailService.send service hello "email-0" 0).1.1.2
        hello "email-0" 5000 in
    evs = []
    ∧ invocations evs = []
    ∧ (r = Fulfilled (str "Duplicate skipped")
       ∨ r = Fulfilled (str "Rate limited"))
    ∧ ((RateLimiter.allow
          (EmailService.rateLimiter
             (EmailService.send service hello "email-0" 0).1.1.2) 5000).1.1.1
       = true →
       r = Fulfilled (str "Duplicate skipped")).
Proof.
  split; [vm_compute; reflexivity|].
  apply (send_idempotent service hello "email-0" "ProviderB" 0).
  - vm_compute. reflexivity.
  - constructor.
Defined.

(** C9. A [send] for an id already marked as sent, admitted by the
    limiter, returns "Duplicate skipped" without invoking any provider;
    providers, breakers and the set of sent ids are as before.  It does
    change the service: the limiter has recorded the call (the kept
    timestamps followed by the time of this call), and the stored status
    of the id is now "Duplicate skipped", whatever "Sent via ..." status
    was stored before. *)
Theorem send_duplicate_frame `{Runtime Ext} (this : EmailService.t Ext)
    (email : Email) (id : string) (ext : Ext) :
  id ∈ EmailService.sentEmails this →
  (RateLimiter.allow (EmailService.rateLimiter this) ext).1.1.1 = true →
  let now := (date_now ext).1 in
  let limiter := EmailService.rateLimiter this in
  let '(r, this', _, evs) := EmailService.send this email id ext in
  r = Fulfilled (str "Duplicate skipped")
  ∧ invocations evs = []
  ∧ EmailService.providers this' = EmailService.providers this
  ∧ EmailService.circuitBreakers this' = EmailService.circuitBreakers this
  ∧ EmailService.sentEmails this' = EmailService.sentEmails this
  ∧ RateLimiter.timestamps (EmailService.rateLimiter this')
    = filter (λ ts, now - ts < RateLimiter.interval limiter)
             (RateLimiter.timestamps limiter) ++ [now]
  ∧ EmailService.statusLog this'
    = <[id := "Duplicate skipped"]> (EmailService.statusLog this)
  ∧ EmailService.getStatus this' id = str "Duplicate skipped"
  ∧ (∀ n, EmailService.getStatus this' id ≠ str ("Sent via " +:+ n)).
Proof.
  intros Hsent Hadmit now limiter.
  pose proof (send_duplicate EmailService.default_retries
                EmailService.default_delay this email id ext Hsent) as Hdup.
  pose proof (allow_at_timestamps now limiter) as Hts.
  rewrite RateLimiter_allow_run in Hadmit. simpl in Hadmit, Hts.
  unfold EmailService.send. subst now limiter.
  destruct (RateLimiter.allow_at _ _) as [allowed limiter'].
  simpl in Hadmit, Hts. subst allowed. rewrite Hdup. simpl.
  unfold EmailService.getStatus. simpl. rewrite lookup_insert_eq.
  repeat split; done.
Qed.

Lemma send_duplicate_frame_witness :
  EmailService.getStatus service_sent "email-0" = str "Sent via ProviderB"
  ∧ "email-0" ∈ EmailService.sentEmails service_sent
  ∧ let now := (date_now 5000).1 in
    let limiter := EmailService.rateLimiter service_sent in
    let '(r, this', _, evs) := EmailService.send service_sent hello "email-0" 5000 in
    r = Fulfilled (str "Duplicate skipped")
    ∧ invocations evs = []
    ∧ EmailService.providers this' = EmailService.providers service_sent
    ∧ EmailService.circuitBreakers this' = EmailService.circuitBreakers service_sent
    ∧ EmailService.sentEmails this' = EmailService.sentEmails service_sent
    ∧ RateLimiter.timestamps (EmailService.rateLimiter this')
      = filter (λ ts, now - ts < RateLimiter.interval limiter)
               (RateLimiter.timestamps limiter) ++ [now]
    ∧ EmailService.statusLog this'
      = <["email-0" := "Duplicate skipped"]> (EmailService.statusLog service_sent)
    ∧ EmailService.getStatus this' "email-0" = str "Duplicate skipped"
    ∧ (∀ n, EmailService.getStatus this' "email-0" ≠ str ("Sent via " +:+ n)).
Proof.
  assert ("email-0" ∈ EmailService.sentEmails service_sent) as Hsent.
  { vm_compute. reflexivity. }
  split; [vm_compute; reflexivity|]. split; [exact Hsent|].
  refine (send_duplicate_frame service_sent hello "email-0" 5000 Hsent _).
  vm_compute. reflexivity.
Defined.

(** ** Retrying zero times *)

(** C10. With [retries <= 0] the loop body of [retryWithBackoff] never
    runs: the call is fulfilled with [undefined] in the same outside
    world and with no event, so [fn] was not invoked and nothing was
    thrown.  A [send] run with such a value takes this for a delivery by
    the first provider whose breaker lets it through: the id is marked as
    sent, that breaker reset and "Sent via ..." stored and returned,
    without any provider being invoked. *)
Theorem retryWithBackoff_zero_retries `{Runtime Ext} (retries delay : Z) :
  retries ≤ 0 →
  (∀ (fn : M Ext Settled) (ext : Ext),
     EmailService.retryWithBackoff fn retries delay ext
     = (Fulfilled undefined, ext, []))
  ∧ (∀ (this : EmailService.t Ext) (email : Email) (id : string) (ext : Ext)
       provider rest breaker breakers,
       EmailService.providers this = provider :: rest →
       EmailService.circuitBreakers this = breaker :: breakers →
       (RateLimiter.allow (EmailService.rateLimiter this) ext).1.1.1 = true →
       id ∉ EmailService.sentEmails this →
       (CircuitBreaker.allow breaker (date_now ext).2).1.1 = true →
       let '(r, this', _, evs) :=
         EmailService.send_with retries delay this email id ext in
       r = Fulfilled (str ("Sent via " +:+ name provider))
       ∧ evs = []
       ∧ invocations evs = []
       ∧ id ∈ EmailService.sentEmails this'
       ∧ EmailService.circuitBreakers this'
         = CircuitBreaker.reset breaker :: breakers
       ∧ EmailService.getStatus this' id
         = str ("Sent via " +:+ name provider)).
Proof.
  intros Hle. split; [intros; by apply retryWithBackoff_none|].
  intros this email id ext provider rest breaker breakers Hp Hcbs Hadmit Hnew Hcb.
  rewrite send_with_run. rewrite RateLimiter_allow_run in Hadmit. simpl in Hadmit.
  destruct (RateLimiter.allow_at _ _) as [allowed limiter].
  simpl in Hadmit. subst allowed. rewrite decide_False by done.
  rewrite Hp, try_providers_cons. simpl. rewrite Hcbs. simpl.
  destruct (CircuitBreaker.allow breaker (date_now ext).2) as [[ok ext1] evs0].
  simpl in Hcb. subst ok.
  rewrite retryWithBackoff_none by done. simpl.
  unfold EmailService.getStatus. simpl. rewrite Hcbs, lookup_insert_eq. simpl.
  repeat split; try done. apply elem_of_union_l. by apply elem_of_singleton.
Qed.

Lemma retryWithBackoff_zero_retries_witness :
  (∀ (fn : M Z Settled) (ext : Z),
     EmailService.retryWithBackoff fn 0 500 ext = (Fulfilled undefined, ext, []))
  ∧ let '(r, this', _, evs) :=
      EmailService.send_with 0 500 service hello "email-0" 0 in
    r = Fulfilled (str ("Sent via " +:+ "ProviderA"))
    ∧ evs = []
    ∧ invocations evs = []
    ∧ "email-0" ∈ EmailService.sentEmails this'
    ∧ EmailService.circuitBreakers this'
      = [CircuitBreaker.reset CircuitBreaker.default; CircuitBreaker.default]
    ∧ EmailService.getStatus this' "email-0"
      = str ("Sent via " +:+ "ProviderA").
Proof.
  split.
  - apply (retryWithBackoff_zero_retries (Ext := Z) 0 500). lia.
  - refine (proj2 (retryWithBackoff_zero_retries (Ext := Z) 0 500 _)
              service hello "email-0" 0
              (MockEmailProvider.provider ProviderA_down)
              [MockEmailProvider.provider ProviderB]
              CircuitBreaker.default [CircuitBreaker.default] _ _ _ _ _).
    + lia.
    + reflexivity.
    + reflexivity.
    + vm_compute. reflexivity.
    + vm_compute. intros Hin. discriminate Hin.
    + vm_compute. reflexivity.
Defined.

(** ** Construction with no provider *)

(** C8, as the code has it.  [new EmailService([])] succeeds: it yields
    a service with no provider and no breaker.  The first [send] on it,
    whatever the message, the id and the outside world, is admitted by
    the limiter, invokes nothing, and returns and stores "All providers
    failed". *)
Theorem constructor_accepts_no_provider `{Runtime Ext} (email : Email) (id : string)
    (ext : Ext) :
  EmailService.providers (EmailService.constructor (Ext := Ext) []) = []
  ∧ EmailService.circuitBreakers (EmailService.constructor (Ext := Ext) []) = []
  ∧ reachable (EmailService.constructor (Ext := Ext) [])
  ∧ let '(r, this', _, evs) :=
      EmailService.send (EmailService.constructor []) email id ext in
    r = Fulfilled (str "All providers failed")
    ∧ evs = []
    ∧ EmailService.getStatus this' id = str "All providers failed".
Proof.
  split; [done|]. split; [done|]. split; [apply reachable_constructor|].
  unfold EmailService.send. rewrite send_with_run.
  change (RateLimiter.allow_at (date_now ext).1
            (EmailService.rateLimiter (EmailService.constructor [])))
    with (true, RateLimiter.mk 5 10000 [(date_now ext).1]).
  cbv beta iota. rewrite decide_False by apply not_elem_of_empty.
  change (EmailService.providers (EmailService.constructor [])) with (@nil (Provider Ext)).
  rewrite try_providers_nil.
  unfold EmailService.getStatus, EmailService.set_statusLog.
  cbn [EmailService.statusLog]. by rewrite lookup_insert_eq.
Qed.

(** C8 fails on the code: constructing a service from the empty list
    raises nothing, and a [send] on that service is reached and returns
    "All providers failed". *)
Lemma constructor_empty_not_rejected :
  EmailService.providers (EmailService.constructor (Ext := Z) []) = []
  ∧ (EmailService.send (EmailService.constructor []) hello "email-0" 0).1.1.1
    = Fulfilled (str "All providers failed").
Proof. split; reflexivity. Qed.

(** ** send: falling back from a failed provider *)

Lemma invocations_app (evs1 evs2 : list Event) :
  invocations (evs1 ++ evs2) = invocations evs1 ++ invocations evs2.
Proof. apply omap_app. Qed.

Lemma retryWithBackoff_invocations `{Runtime Ext} (tag : nat) (f : Async Ext)
    (retries delay : Z) (ext : Ext) :
  1 ≤ retries →
  ∃ n, invocations (EmailService.retryWithBackoff (call tag f) retries delay ext).2
       = replicate (S n) tag.
Proof.
  intros Hretries. unfold EmailService.retryWithBackoff.
  destruct (retry_loop_trace tag f retries delay (Z.to_nat retries) 0 ext)
    as (errs & -> & _); [lia|lia|].
  exists (length errs). apply invocations_backoff_trace.
Qed.

Lemma StronglySorted_replicate (n i : nat) : StronglySorted le (replicate n i).
Proof.
  induction n as [|n IH]; simpl; constructor; [done|].
  apply Forall_forall. intros j Hj. by apply elem_of_replicate_inv in Hj as ->.
Qed.

(** The loop from index [i] invokes no provider before [i] and touches
    no breaker before [i]. *)
Lemma try_providers_from `{Runtime Ext} (retries delay : Z) (email : Email)
    (id : string) (rest : list (Provider Ext)) :
  1 ≤ retries →
  ∀ (i : nat) (this : EmailService.t Ext) (ext : Ext),
    let '(_, this', _, evs) :=
      EmailService.try_providers retries delay email id rest i this ext in
    Forall (λ j, i ≤ j)%nat (invocations evs)
    ∧ ∀ j, (j < i)%nat →
           EmailService.circuitBreakers this' !! j
           = EmailService.circuitBreakers this !! j.
Proof.
  intros Hretries. induction rest as [|provider rest IH]; intros i this ext.
  { rewrite try_providers_nil. split; [constructor|done]. }
  rewrite try_providers_cons.
  destruct (EmailService.circuitBreakers this !! i) as [breaker|] eqn:Hi.
  2:{ split; [constructor|done]. }
  destruct (CircuitBreaker.allow breaker ext) as [[allowed ext1] evs0].
  destruct allowed.
  - destruct (retryWithBackoff_invocations i (sendEmail provider email)
                retries delay ext1 Hretries) as [n Hcalls].
    assert (Forall (λ j, i ≤ j)%nat (replicate (S n) i)) as Hself.
    { apply Forall_forall. intros j Hj.
      by apply elem_of_replicate_inv in Hj as ->. }
    destruct (EmailService.retryWithBackoff _ retries delay ext1)
      as [[[v|err] ext2] evs]; cbn [snd] in Hcalls.
    + rewrite Hcalls. split; [done|]. intros j Hj. simpl.
      apply list_lookup_insert_ne. lia.
    + destruct (read_message err) as [type_error|detail].
      { rewrite Hcalls. split; done. }
      specialize (IH (S i) (failed_at this i breaker (date_now ext2).1)
                     (date_now ext2).2).
      destruct (EmailService.try_providers _ _ _ _ _ _ _ _)
        as [[[r this'] ext3] evs3].
      destruct IH as [Hrange Hkeep].
      rewrite invocations_app, Hcalls.
      change (invocations (Logged _ _ :: evs3)) with (invocations evs3).
      split.
      * apply Forall_app. split; [done|].
        eapply Forall_impl; [exact Hrange|]. simpl. lia.
      * intros j Hj. rewrite Hkeep by lia. simpl.
        apply list_lookup_insert_ne. lia.
  - specialize (IH (S i) this ext1).
    destruct (EmailService.try_providers _ _ _ _ _ _ _ _)
      as [[[r this'] ext3] evs3].
    destruct IH as [Hrange Hkeep]. split.
    + eapply Forall_impl; [exact Hrange|]. simpl. lia.
    + intros j Hj. apply Hkeep. lia.
Qed.

(** A collaborator that always succeeds is invoked once. *)
Lemma retryWithBackoff_always_fulfilled `{Runtime Ext} (tag : nat) (f : Async Ext)
    (retries delay : Z) (ext : Ext) :
  1 ≤ retries →
  (∀ ext, is_rejected (f ext).1 = false) →
  ∃ v ext',
    EmailService.retryWithBackoff (call tag f) retries delay ext
    = (Fulfilled v, ext', [Invoked tag (Fulfilled v)]).
Proof.
  intros Hretries Hf. unfold EmailService.retryWithBackoff.
  destruct (Z.to_nat retries) as [|left] eqn:Hn; [lia|].
  simpl. destruct (Z.ltb_spec 0 retries); [|lia].
  unfold mbind, M_bind, call. specialize (Hf ext).
  destruct (f ext) as [[v|e] ext1]; [|done].
  by exists v, ext1.
Qed.

(** C2, where the code departs from it.  Providers [A; B], both
    breakers below their thresholds, A always rejecting with [undefined]
    or [null] and B always succeeding: an admitted [send] for a new id
    does not fall back to B.  It invokes A three times and is then
    rejected with the [TypeError] raised by reading [err.message]: it
    returns no status naming B, B is never invoked, A's failure count is
    not incremented, and the id is not marked as sent. *)
Theorem send_no_fallback_after_nullish_rejection `{Runtime Ext}
    (this : EmailService.t Ext) (email : Email) (id : string) (ext : Ext)
    (A B : Provider Ext) (breakerA breakerB : CircuitBreaker.t) (err : Error) :
  (RateLimiter.allow (EmailService.rateLimiter this) ext).1.1.1 = true →
  id ∉ EmailService.sentEmails this →
  EmailService.providers this = [A; B] →
  EmailService.circuitBreakers this = [breakerA; breakerB] →
  (∀ m x, (sendEmail A m x).1 = Rejected err) →
  nullish err = true →
  (∀ m x, is_rejected (sendEmail B m x).1 = false) →
  CircuitBreaker.failures breakerA < CircuitBreaker.failureThreshold breakerA →
  CircuitBreaker.failures breakerB < CircuitBreaker.failureThreshold breakerB →
  let '(r, this', _, evs) := EmailService.send this email id ext in
  is_rejected r = true
  ∧ r ≠ Fulfilled (str ("Sent via " +:+ name B))
  ∧ invocations evs = [0; 0; 0]%nat
  ∧ (1%nat ∉ invocations evs)
  ∧ EmailService.circuitBreakers this' = [breakerA; breakerB]
  ∧ (id ∉ EmailService.sentEmails this').
Proof.
  intros Hadmit Hnew Hp Hcbs HA Hnull _ HcbA _.
  pose proof (send_with_nullish_rejection EmailService.default_retries
                EmailService.default_delay this email id ext A [B]
                breakerA [breakerB] err ltac:(done) Hp Hcbs Hadmit Hnew HcbA
                (HA email) Hnull) as Hrun.
  unfold EmailService.send.
  destruct (EmailService.send_with _ _ _ _ _ _) as [[[r this'] ext'] evs].
  destruct Hrun as ((type_error & _ & ->) & Hcalls & _ & Hbreakers & Hsent & _).
  rewrite Hcalls, Hbreakers, Hsent, Hcbs.
  split; [done|]. split; [done|]. split; [done|]. split; [|done].
  intros Hin. by apply elem_of_replicate_inv in Hin.
Qed.

Lemma send_no_fallback_after_nullish_rejection_witness :
  let '(r, this', _, evs) := EmailService.send service_rejecting hello "email-0" 0 in
  is_rejected r = true
  ∧ r ≠ Fulfilled (str ("Sent via " +:+ "ProviderB"))
  ∧ invocations evs = [0; 0; 0]%nat
  ∧ (1%nat ∉ invocations evs)
  ∧ EmailService.circuitBreakers this'
    = [CircuitBreaker.default; CircuitBreaker.default]
  ∧ ("email-0" ∉ EmailService.sentEmails this').
Proof.
  refine (send_no_fallback_after_nullish_rejection service_rejecting hello
            "email-0" 0 ProviderA_rejecting (MockEmailProvider.provider ProviderB)
            CircuitBreaker.default CircuitBreaker.default thrown_undefined
            _ _ _ _ _ _ _ _ _).
  - vm_compute. reflexivity.
  - vm_compute. intros Hin. discriminate Hin.
  - reflexivity.
  - reflexivity.
  - intros m x. reflexivity.
  - reflexivity.
  - intros m x. reflexivity.
  - simpl. lia.
  - simpl. lia.
Defined.

(** * Further properties *)

(** ** RateLimiter: capacity and windows *)

Lemma filter_filter_weaker {A} (P Q : A → Prop) `{!∀ x, Decision (P x)}
    `{!∀ x, Decision (Q x)} (l : list A) :
  (∀ x, P x → Q x) → filter P (filter Q l) = filter P l.
Proof.
  intros HPQ. induction l as [|x l IH]; [done|].
  rewrite (filter_cons Q). destruct (decide (Q x)) as [HQ|HQ].
  - rewrite !filter_cons. by rewrite IH.
  - rewrite IH. rewrite (filter_cons_False P); [done|]. intros HP. auto.
Qed.

Lemma length_filter_weaker {A} (P Q : A → Prop) `{!∀ x, Decision (P x)}
    `{!∀ x, Decision (Q x)} (l : list A) :
  (∀ x, x ∈ l → P x → Q x) →
  (length (filter P l) ≤ length (filter Q l))%nat.
Proof.
  induction l as [|x l IH]; intros HPQ; [done|].
  assert (length (filter P l) ≤ length (filter Q l))%nat as Hl.
  { apply IH. intros y Hy. apply HPQ. by apply elem_of_cons; right. }
  rewrite !filter_cons.
  destruct (decide (P x)) as [HP|HP]; destruct (decide (Q x)) as [HQ|HQ];
    simpl; try lia.
  destruct HQ. apply HPQ; [by apply elem_of_cons; left|done].
Qed.

Lemma admitted_elem_of (times : list Z) :
  ∀ oks t, t ∈ admitted times oks → t ∈ times.
Proof.
  induction times as [|t0 times IH]; intros [|ok oks] t Ht; simpl in Ht;
    try by apply elem_of_nil in Ht.
  destruct ok.
  - apply elem_of_cons in Ht as [->|Ht]; apply elem_of_cons; eauto.
  - apply elem_of_cons. eauto.
Qed.

(** The limiter never holds more than [limit] timestamps once it holds
    at most that many, and what it holds are times of admitted calls or
    timestamps it had. *)
Lemma allow_each_capacity (times : list Z) :
  ∀ (this : RateLimiter.t),
    Z.of_nat (length (RateLimiter.timestamps this)) ≤ RateLimiter.limit this →
    Z.of_nat (length (RateLimiter.timestamps (allow_each times this).2))
    ≤ RateLimiter.limit this
    ∧ RateLimiter.limit (allow_each times this).2 = RateLimiter.limit this
    ∧ RateLimiter.interval (allow_each times this).2 = RateLimiter.interval this
    ∧ length (allow_each times this).1 = length times
    ∧ ∀ t, t ∈ RateLimiter.timestamps (allow_each times this).2 →
           t ∈ RateLimiter.timestamps this
           ∨ t ∈ admitted times (allow_each times this).1.
Proof.
  induction times as [|now times IH]; intros this Hcap; simpl.
  { repeat split; try done. intros t Ht. by left. }
  pose proof (allow_at_admits now this) as Hadm.
  pose proof (allow_at_timestamps now this) as Hts.
  pose proof (allow_at_config now this) as [Hlim Hint].
  destruct (RateLimiter.allow_at now this) as [ok this1].
  simpl in Hadm, Hts, Hlim, Hint.
  specialize (IH this1). rewrite Hlim, Hint in IH.
  destruct (allow_each times this1) as [oks this2]. simpl in *.
  pose proof (length_filter (λ ts, now - ts < RateLimiter.interval this)
                (RateLimiter.timestamps this)) as Hkept.
  destruct IH as (Hcap' & Hlim' & Hint' & Hlen' & Hfrom).
  { rewrite Hts. destruct ok; [|lia].
    rewrite length_app. simpl. destruct Hadm as [Hadm _].
    specialize (Hadm eq_refl). lia. }
  repeat split; try done; [by rewrite Hlen'|].
  intros t Ht. destruct (Hfrom t Ht) as [Ht1|Ht2].
  - rewrite Hts in Ht1. destruct ok.
    + apply elem_of_app in Ht1 as [Ht1|Ht1].
      * left. by apply list_elem_of_filter in Ht1 as [_ ?].
      * right. apply list_elem_of_singleton in Ht1 as ->.
        by apply elem_of_cons; left.
    + left. by apply list_elem_of_filter in Ht1 as [_ ?].
  - right. destruct ok; [apply elem_of_cons; by right|done].
Qed.

(** X1. A limiter built by [new RateLimiter(limit, interval)] with a
    limit that is not negative never stores more than [limit]
    timestamps, whatever the clock does, and every timestamp it stores is
    the time of a call it admitted. *)
Theorem RateLimiter_capacity (limit interval : Z) (times : list Z) :
  0 ≤ limit →
  let '(oks, this) := allow_each times (RateLimiter.new limit interval) in
  Z.of_nat (length (RateLimiter.timestamps this)) ≤ limit
  ∧ length oks = length times
  ∧ ∀ t, t ∈ RateLimiter.timestamps this → t ∈ admitted times oks.
Proof.
  intros Hlimit.
  pose proof (allow_each_capacity times (RateLimiter.new limit interval)) as Hcap.
  destruct (allow_each times (RateLimiter.new limit interval)) as [oks this].
  simpl in Hcap. destruct Hcap as (Hlen & _ & _ & Hoks & Hfrom); [lia|].
  repeat split; try done. intros t Ht.
  destruct (Hfrom t Ht) as [Hnil|?]; [|done]. by apply elem_of_nil in Hnil.
Qed.

Lemma RateLimiter_capacity_witness :
  let '(oks, this) := allow_each [5; 3; 9; 1; 4] (RateLimiter.new 2 10) in
  Z.of_nat (length (RateLimiter.timestamps this)) ≤ 2
  ∧ length oks = length [5; 3; 9; 1; 4]
  ∧ ∀ t, t ∈ RateLimiter.timestamps this → t ∈ admitted [5; 3; 9; 1; 4] oks.
Proof. apply (RateLimiter_capacity 2 10 [5; 3; 9; 1; 4]). lia. Defined.

(** With a clock that does not run backwards, the limiter holds exactly
    the admitted calls that are younger than the interval, and no window
    contains more than [limit] admitted calls.  [hist] are the calls
    admitted so far and [t0] the time of the last call. *)
Lemma allow_each_window (times : list Z) :
  ∀ (this : RateLimiter.t) (hist : list Z) (t0 : Z),
    0 < RateLimiter.interval this →
    StronglySorted Z.le (t0 :: times) →
    Forall (λ a, a ≤ t0) hist →
    RateLimiter.timestamps this
    = filter (λ a, t0 - a < RateLimiter.interval this) hist →
    (∀ now, Z.of_nat (length (filter (in_window (RateLimiter.interval this) now)
                                     hist))
            ≤ RateLimiter.limit this) →
    ∀ now,
      Z.of_nat (length (filter (in_window (RateLimiter.interval this) now)
                               (hist ++ admitted times (allow_each times this).1)))
      ≤ RateLimiter.limit this.
Proof.
  induction times as [|t times IH]; intros this hist t0 Hpos Hsorted Hpast Hts Hwin now.
  { simpl. rewrite app_nil_r. apply Hwin. }
  apply StronglySorted_cons in Hsorted as [Hle Hsorted].
  apply Forall_cons in Hle as [Ht0 _].
  simpl.
  pose proof (allow_at_admits t this) as Hadm.
  pose proof (allow_at_timestamps t this) as Hts1.
  pose proof (allow_at_config t this) as [Hlim Hint].
  destruct (RateLimiter.allow_at t this) as [ok this1].
  simpl in Hadm, Hts1, Hlim, Hint.
  assert (filter (λ ts, t - ts < RateLimiter.interval this)
                 (RateLimiter.timestamps this)
          = filter (λ ts, t - ts < RateLimiter.interval this) hist) as Hkept.
  { rewrite Hts. apply filter_filter_weaker. intros a Ha. lia. }
  rewrite Hkept in Hts1, Hadm.
  specialize (IH this1 (if ok then hist ++ [t] else hist) t).
  rewrite Hlim, Hint in IH.
  destruct (allow_each times this1) as [oks this2]. simpl in *.
  assert (Forall (λ a, a ≤ t) hist) as Hpast'.
  { eapply Forall_impl; [exact Hpast|]. simpl. lia. }
  destruct ok.
  - rewrite (cons_middle t), app_assoc. apply IH; try done.
    + apply Forall_app. split; [done|]. by constructor.
    + rewrite Hts1, filter_app. f_equal.
      rewrite filter_cons_True by lia. done.
    + intros now'. rewrite filter_app, length_app.
      rewrite filter_cons. destruct (decide (in_window _ now' t)) as [[Hw1 Hw2]|Hw].
      * simpl. destruct Hadm as [Hadm _]. specialize (Hadm eq_refl).
        pose proof (length_filter_weaker
                      (in_window (RateLimiter.interval this) now')
                      (λ ts, t - ts < RateLimiter.interval this) hist) as Hmono.
        assert (∀ a, a ∈ hist → in_window (RateLimiter.interval this) now' a →
                     t - a < RateLimiter.interval this) as Himpl.
        { intros a _ [Ha1 Ha2]. lia. }
        specialize (Hmono Himpl). lia.
      * simpl. specialize (Hwin now'). lia.
  - by apply IH.
Qed.

(** X2. The sliding-window guarantee.  From a limiter built by
    [new RateLimiter(limit, interval)], with a positive interval and a
    clock that does not run backwards, no window of length [interval]
    contains more than [limit] admitted calls, whatever its end [now]. *)
Theorem RateLimiter_window_bound (limit interval : Z) (times : list Z) (now : Z) :
  0 ≤ limit →
  0 < interval →
  StronglySorted Z.le times →
  Z.of_nat (length (filter (in_window interval now)
                           (admitted times
                              (allow_each times (RateLimiter.new limit interval)).1)))
  ≤ limit.
Proof.
  intros Hlimit Hpos Hsorted.
  destruct times as [|t times]; [simpl; lia|].
  apply (allow_each_window (t :: times) (RateLimiter.new limit interval) [] t);
    try done.
  constructor; [done|]. constructor; [done|].
  apply StronglySorted_cons in Hsorted as [Hle _]. done.
Qed.

Lemma RateLimiter_window_bound_witness :
  admitted [0; 1; 2; 3; 9; 10; 11]
    (allow_each [0; 1; 2; 3; 9; 10; 11] (RateLimiter.new 2 10)).1
  = [0; 1; 10; 11]
  ∧ Z.of_nat (length (filter (in_window 10 10)
                        (admitted [0; 1; 2; 3; 9; 10; 11]
                           (allow_each [0; 1; 2; 3; 9; 10; 11]
                              (RateLimiter.new 2 10)).1)))
    ≤ 2.
Proof.
  split; [reflexivity|].
  apply (RateLimiter_window_bound 2 10 [0; 1; 2; 3; 9; 10; 11] 10); [lia|lia|].
  repeat (constructor; [|repeat constructor; lia]). constructor.
Defined.

(** ** RateLimiter: degenerate configurations *)

Lemma allow_each_closed (times : list Z) :
  ∀ (this : RateLimiter.t),
    RateLimiter.limit this ≤ 0 →
    (allow_each times this).1 = replicate (length times) false
    ∧ RateLimiter.timestamps (allow_each times this).2
      `sublist_of` RateLimiter.timestamps this.
Proof.
  induction times as [|now times IH]; intros this Hlimit; [done|].
  simpl.
  pose proof (allow_at_admits now this) as Hadm.
  pose proof (allow_at_timestamps now this) as Hts.
  pose proof (allow_at_config now this) as [Hlim _].
  destruct (RateLimiter.allow_at now this) as [ok this1].
  simpl in Hadm, Hts, Hlim.
  destruct ok; [destruct Hadm as [Hadm _]; specialize (Hadm eq_refl); lia|].
  destruct (IH this1) as [Hoks Hsub]; [lia|].
  destruct (allow_each times this1) as [oks this2]. simpl in *.
  split; [by rewrite Hoks|].
  etrans; [exact Hsub|]. rewrite Hts. apply sublist_filter.
Qed.

(** X3. A limiter whose limit is zero or negative refuses every call,
    in whatever state it is and whatever the clock does, and never
    records anything: its timestamps can only be pruned. *)
Theorem RateLimiter_limit_zero (this : RateLimiter.t) (times : list Z) :
  RateLimiter.limit this ≤ 0 →
  (allow_each times this).1 = replicate (length times) false
  ∧ admitted times (allow_each times this).1 = []
  ∧ RateLimiter.timestamps (allow_each times this).2
    `sublist_of` RateLimiter.timestamps this.
Proof.
  intros Hlimit. destruct (allow_each_closed times this Hlimit) as [Hoks Hsub].
  split; [done|]. split; [|done]. rewrite Hoks. clear.
  induction times as [|t times IH]; [done|]. exact IH.
Qed.

Lemma RateLimiter_limit_zero_witness :
  (allow_each [0; 50000; 100000] (RateLimiter.mk 0 10000 [7])).1
  = replicate 3 false
  ∧ admitted [0; 50000; 100000]
      (allow_each [0; 50000; 100000] (RateLimiter.mk 0 10000 [7])).1 = []
  ∧ RateLimiter.timestamps
      (allow_each [0; 50000; 100000] (RateLimiter.mk 0 10000 [7])).2
    `sublist_of` [7].
Proof.
  apply (RateLimiter_limit_zero (RateLimiter.mk 0 10000 [7]) [0; 50000; 100000]).
  simpl. lia.
Defined.

Lemma filter_none {A} (P : A → Prop) `{!∀ x, Decision (P x)} (l : list A) :
  Forall (λ x, ¬ P x) l → filter P l = [].
Proof.
  induction 1 as [|x l Hx _ IH]; [done|]. by rewrite filter_cons_False.
Qed.

Lemma allow_each_no_window (times : list Z) :
  ∀ (this : RateLimiter.t) (t0 : Z),
    RateLimiter.interval this ≤ 0 →
    0 < RateLimiter.limit this →
    StronglySorted Z.le (t0 :: times) →
    Forall (λ a, a ≤ t0) (RateLimiter.timestamps this) →
    (allow_each times this).1 = replicate (length times) true
    ∧ (length (RateLimiter.timestamps (allow_each times this).2) ≤ 1
       ∨ times = [])%nat.
Proof.
  induction times as [|t times IH]; intros this t0 Hint Hlimit Hsorted Hpast.
  { split; [done|by right]. }
  apply StronglySorted_cons in Hsorted as [Hle Hsorted].
  apply Forall_cons in Hle as [Ht0 _].
  simpl.
  pose proof (allow_at_admits t this) as Hadm.
  pose proof (allow_at_timestamps t this) as Hts.
  pose proof (allow_at_config t this) as [Hlim Hint'].
  assert (filter (λ ts, t - ts < RateLimiter.interval this)
                 (RateLimiter.timestamps this) = []) as Hkept.
  { apply filter_none. eapply Forall_impl; [exact Hpast|]. simpl. lia. }
  rewrite Hkept in Hadm, Hts.
  destruct (RateLimiter.allow_at t this) as [ok this1].
  simpl in Hadm, Hts, Hlim, Hint'.
  destruct ok; [|destruct Hadm as [_ Hadm]; simpl in Hadm;
                  specialize (Hadm Hlimit); done].
  destruct (IH this1 t) as [Hoks Hlen]; [lia|lia|done| |].
  { rewrite Hts. simpl. by repeat constructor. }
  destruct Hlen as [Hlen | ->].
  - destruct (allow_each times this1) as [oks this2]. simpl in *.
    split; [by rewrite Hoks|]. by left.
  - simpl. split; [done|]. left. rewrite Hts. simpl. lia.
Qed.

(** X4. A limiter built with an interval that is zero or negative and a
    positive limit retains nothing from one call to the next: with a
    clock that does not run backwards every call is admitted, and it
    never holds more than the timestamp of the last call. *)
Theorem RateLimiter_interval_zero (limit interval : Z) (times : list Z) :
  interval ≤ 0 →
  0 < limit →
  StronglySorted Z.le times →
  (allow_each times (RateLimiter.new limit interval)).1
  = replicate (length times) true
  ∧ (length (RateLimiter.timestamps
               (allow_each times (RateLimiter.new limit interval)).2) ≤ 1)%nat.
Proof.
  intros Hint Hlimit Hsorted.
  destruct times as [|t times]; [simpl; split; [done|lia]|].
  destruct (allow_each_no_window (t :: times) (RateLimiter.new limit interval) t)
    as [Hoks Hlen]; try done.
  { constructor; [done|]. constructor; [done|].
    by apply StronglySorted_cons in Hsorted as [Hle _]. }
  split; [done|]. by destruct Hlen.
Qed.

Lemma RateLimiter_interval_zero_witness :
  (allow_each [3; 3; 4; 8] (RateLimiter.new 1 0)).1 = replicate 4 true
  ∧ (length (RateLimiter.timestamps
               (allow_each [3; 3; 4; 8]%Z (RateLimiter.new 1 0)%Z).2) ≤ 1)%nat.
Proof.
  apply (RateLimiter_interval_zero 1 0 [3; 3; 4; 8]); [lia|lia|].
  repeat (constructor; [|repeat constructor; lia]). constructor.
Defined.

(** ** CircuitBreaker: sequences of calls *)

Lemma CircuitBreaker_after_run `{Runtime Ext} (m : CircuitBreaker.method)
    (this : CircuitBreaker.t) (ext : Ext) :
  ∃ this1 ext1,
    CircuitBreaker.after m this ext = (this1, ext1, [])
    ∧ CircuitBreaker.failures this1
      = failures_since_reset [m] (CircuitBreaker.failures this)
    ∧ CircuitBreaker.failureThreshold this1 = CircuitBreaker.failureThreshold this
    ∧ CircuitBreaker.recoveryTime this1 = CircuitBreaker.recoveryTime this.
Proof.
  destruct m; cbn [CircuitBreaker.after failures_since_reset].
  - unfold mbind, M_bind, mret, M_ret.
    pose proof (CircuitBreaker_allow_quiet this ext) as Hquiet.
    destruct (CircuitBreaker.allow this ext) as [[ok ext1] evs0].
    simpl in Hquiet. subst evs0. by exists this, ext1.
  - rewrite CircuitBreaker_recordFailure_run. by eexists _, _.
  - unfold mret, M_ret. by eexists _, _.
Qed.

Lemma breaker_calls_run `{Runtime Ext} (ms : list CircuitBreaker.method) :
  ∀ (this : CircuitBreaker.t) (ext : Ext),
    CircuitBreaker.failures (breaker_calls ms this ext).1.1
    = failures_since_reset ms (CircuitBreaker.failures this)
    ∧ CircuitBreaker.failureThreshold (breaker_calls ms this ext).1.1
      = CircuitBreaker.failureThreshold this
    ∧ CircuitBreaker.recoveryTime (breaker_calls ms this ext).1.1
      = CircuitBreaker.recoveryTime this
    ∧ (breaker_calls ms this ext).2 = [].
Proof.
  induction ms as [|m ms IH]; intros this ext; [done|].
  cbn [breaker_calls]. unfold mbind, M_bind.
  destruct (CircuitBreaker_after_run m this ext)
    as (this1 & ext1 & -> & Hf & Hthr & Hrec).
  specialize (IH this1 ext1).
  destruct (breaker_calls ms this1 ext1) as [[this' ext2] evs].
  cbn [fst snd] in *. destruct IH as (Hf' & Hthr' & Hrec' & ->).
  rewrite Hf', Hthr', Hrec', Hf, Hthr, Hrec.
  repeat split; try done. by destruct m.
Qed.

(** X5. After any sequence of [allow()], [recordFailure()] and
    [reset()] calls on a breaker, in any outside world, its count is the
    number of failures recorded since the last reset (added to the count
    it started with if there was no reset), and its threshold and
    recovery time are as before.  So as long as fewer than
    [failureThreshold] failures were recorded since the last reset,
    [allow()] answers true at any time. *)
Theorem CircuitBreaker_counts_since_reset `{Runtime Ext}
    (ms : list CircuitBreaker.method) (this : CircuitBreaker.t) (ext : Ext) :
  let this' := (breaker_calls ms this ext).1.1 in
  CircuitBreaker.failures this'
  = failures_since_reset ms (CircuitBreaker.failures this)
  ∧ CircuitBreaker.failureThreshold this' = CircuitBreaker.failureThreshold this
  ∧ CircuitBreaker.recoveryTime this' = CircuitBreaker.recoveryTime this
  ∧ (failures_since_reset ms (CircuitBreaker.failures this)
     < CircuitBreaker.failureThreshold this →
     ∀ x : Ext, (CircuitBreaker.allow this' x).1.1 = true).
Proof.
  intros this'. subst this'.
  destruct (breaker_calls_run ms this ext) as (Hf & Hthr & Hrec & _).
  repeat split; try done.
  intros Hbelow x. rewrite CircuitBreaker_allow_closed; [done|].
  rewrite Hf, Hthr. done.
Qed.

Lemma CircuitBreaker_counts_since_reset_witness :
  CircuitBreaker.failures (breaker_calls success_then_two_failures
                             CircuitBreaker.default 0).1.1 = 2
  ∧ ∀ x : Z,
      (CircuitBreaker.allow
         (breaker_calls success_then_two_failures CircuitBreaker.default 0).1.1
         x).1.1
      = true.
Proof.
  destruct (CircuitBreaker_counts_since_reset success_then_two_failures
              CircuitBreaker.default 0)
    as (Hcount & _ & _ & Hallow).
  split; [exact Hcount|]. apply Hallow. simpl. lia.
Defined.

(** ** send: one call, path by path *)

Lemma status_distinct :
  "Rate limited" ≠ "Duplicate skipped"
  ∧ "Rate limited" ≠ "All providers failed"
  ∧ "Duplicate skipped" ≠ "All providers failed".
Proof. repeat split; discriminate. Qed.

(** What one [send] does on a service with one breaker per provider,
    path by path: the four paths that return, and the one that throws. *)
Lemma send_with_step `{Runtime Ext} (retries delay : Z)
    (this : EmailService.t Ext) (email : Email) (id : string) (ext : Ext) :
  consistent this →
  let admits :=
    (RateLimiter.allow_at (date_now ext).1 (EmailService.rateLimiter this)).1 in
  let '(r, this', _, _) := EmailService.send_with retries delay this email id ext in
  EmailService.rateLimiter this'
  = (RateLimiter.allow_at (date_now ext).1 (EmailService.rateLimiter this)).2
  ∧ ((∃ status,
        r = Fulfilled (str status)
        ∧ EmailService.statusLog this'
          = <[id := status]> (EmailService.statusLog this)
        ∧ ((status = "Rate limited" ∧ admits = false
            ∧ EmailService.sentEmails this' = EmailService.sentEmails this)
           ∨ (status = "Duplicate skipped" ∧ admits = true
              ∧ id ∈ EmailService.sentEmails this
              ∧ EmailService.sentEmails this' = EmailService.sentEmails this)
           ∨ (status = "All providers failed" ∧ admits = true
              ∧ (id ∉ EmailService.sentEmails this)
              ∧ EmailService.sentEmails this' = EmailService.sentEmails this)
           ∨ (∃ provider,
                provider ∈ EmailService.providers this
                ∧ status = "Sent via " +:+ name provider ∧ admits = true
                ∧ (id ∉ EmailService.sentEmails this)
                ∧ EmailService.sentEmails this'
                  = {[id]} ∪ EmailService.sentEmails this)))
     ∨ (∃ provider err type_error x,
          provider ∈ EmailService.providers this
          ∧ (sendEmail provider email x).1 = Rejected err
          ∧ nullish err = true
          ∧ r = Rejected type_error
          ∧ admits = true
          ∧ (id ∉ EmailService.sentEmails this)
          ∧ EmailService.statusLog this' = EmailService.statusLog this
          ∧ EmailService.sentEmails this' = EmailService.sentEmails this)).
Proof.
  intros Hcons admits. subst admits. unfold consistent in Hcons.
  rewrite send_with_run.
  destruct (RateLimiter.allow_at _ _) as [allowed limiter].
  destruct allowed.
  2:{ split; [done|]. left. exists "Rate limited". simpl.
      repeat split; try done. by left. }
  case_decide as Hsent.
  { split; [done|]. left. exists "Duplicate skipped". simpl.
    repeat split; try done. right. by left. }
  pose proof (try_providers_outcome retries delay email id
                (EmailService.providers this) 0
                (EmailService.set_rateLimiter limiter this) (date_now ext).2) as Hloop.
  destruct (EmailService.try_providers _ _ _ _ _ _ _ _) as [[[r this'] ext3] evs3].
  simpl in Hloop. destruct Hloop as (_ & Hrl & _ & _ & Hcase).
  split; [done|].
  destruct Hcase as [[_ Hlt]|[(p & e & te & x & Hp' & Hx & Hte & -> & Hlog & Hs)
                    |[(-> & Hlog & Hs)|(p & Hp' & -> & Hlog & Hs)]]].
  - lia.
  - right. exists p, e, te, x. simpl. repeat split; try done.
    apply read_message_nullish. by exists te.
  - left. exists "All providers failed". simpl. repeat split; try done.
    right. right. by left.
  - left. exists ("Sent via " +:+ name p). simpl. repeat split; try done.
    right. right. right. by exists p.
Qed.

(** ** send: histories of calls *)

Lemma history_sends `{Runtime Ext} (this this' : EmailService.t Ext)
    (log : list (string * Settled)) :
  history this log this' → sends this this'.
Proof. induction 1; by constructor. Qed.

Lemma history_consistent `{Runtime Ext} (this this' : EmailService.t Ext)
    (log : list (string * Settled)) :
  consistent this → history this log this' → consistent this'.
Proof.
  intros Hcons Hhist. apply history_sends, sends_invariant in Hhist.
  destruct Hhist as (Hp & Hlen & _). unfold consistent in *. congruence.
Qed.

Lemma constructor_consistent {Ext} (providers : list (Provider Ext)) :
  consistent (EmailService.constructor providers).
Proof. unfold consistent. simpl. apply length_fmap. Qed.

(** The ids marked as sent are those the service started with and those
    for which some call returned "Sent via ...". *)
Lemma history_sent `{Runtime Ext} (this0 this : EmailService.t Ext)
    (log : list (string * Settled)) :
  consistent this0 →
  history this0 log this →
  ∀ id,
    id ∈ EmailService.sentEmails this
    ↔ id ∈ EmailService.sentEmails this0
      ∨ ∃ n, (id, Fulfilled (str ("Sent via " +:+ n))) ∈ log.
Proof.
  intros Hcons. induction 1 as [this|this log mid email id0 ext Hhist IH]; intros id.
  { split; [by left|]. intros [?|[n Hn]]; [done|]. by apply elem_of_nil in Hn. }
  pose proof (history_consistent _ _ _ Hcons Hhist) as Hmid.
  pose proof (send_with_step EmailService.default_retries
                EmailService.default_delay mid email id0 ext Hmid) as Hstep.
  unfold EmailService.send.
  destruct (EmailService.send_with _ _ _ _ _ _) as [[[r this'] ext'] evs].
  cbn [fst snd] in *.
  specialize (IH Hcons id). setoid_rewrite elem_of_app.
  setoid_rewrite list_elem_of_singleton.
  destruct Hstep as (_ & [(status & -> & _ & Hcase)
                         |(p & e & te & x & _ & _ & _ & -> & _ & _ & _ & Hs)]).
  2:{ rewrite Hs, IH. split; [intros [?|[n ?]]; eauto|].
      intros [?|[n [?|Heq]]]; eauto. congruence. }
  destruct Hcase as [(-> & _ & Hs)|[(-> & _ & _ & Hs)|[(-> & _ & _ & Hs)
                    |(p & _ & -> & _ & _ & Hs)]]]; rewrite Hs.
  - rewrite IH. split; [intros [?|[n ?]]; eauto|].
    intros [?|[n [?|Heq]]]; eauto.
    destruct (sent_via_distinct n) as (Hne & _ & _). congruence.
  - rewrite IH. split; [intros [?|[n ?]]; eauto|].
    intros [?|[n [?|Heq]]]; eauto.
    destruct (sent_via_distinct n) as (_ & Hne & _). congruence.
  - rewrite IH. split; [intros [?|[n ?]]; eauto|].
    intros [?|[n [?|Heq]]]; eauto.
    destruct (sent_via_distinct n) as (_ & _ & Hne). congruence.
  - rewrite elem_of_union, elem_of_singleton, IH. split.
    + intros [->|[?|[n ?]]]; eauto.
    + intros [?|[n [?|Heq]]]; eauto. left. congruence.
Qed.

(** X6. On a service built by the constructor, after any calls of
    [send], an id is marked as sent exactly when one of the calls for it
    returned "Sent via ...". *)
Theorem sentEmails_are_the_delivered_ids `{Runtime Ext}
    (providers : list (Provider Ext)) (log : list (string * Settled))
    (this : EmailService.t Ext) (id : string) :
  history (EmailService.constructor providers) log this →
  id ∈ EmailService.sentEmails this
  ↔ ∃ n, (id, Fulfilled (str ("Sent via " +:+ n))) ∈ log.
Proof.
  intros Hhist.
  rewrite (history_sent _ _ _ (constructor_consistent providers) Hhist id).
  split; [|by right]. intros [Hin|?]; [|done].
  simpl in Hin. by apply not_elem_of_empty in Hin.
Qed.

Lemma sentEmails_are_the_delivered_ids_witness :
  "email-0" ∈ EmailService.sentEmails service_sent
  ↔ ∃ n, ("email-0", Fulfilled (str ("Sent via " +:+ n)))
         ∈ [] ++ [("email-0", (EmailService.send service hello "email-0" 0).1.1.1)].
Proof.
  exact (sentEmails_are_the_delivered_ids
           (EmailService.providers service) _ _ "email-0"
           (history_snoc service [] service hello "email-0" 0
              (history_nil service))).
Defined.

(** The stored status of an id is what the last call for it that
    returned has returned. *)
Lemma history_status `{Runtime Ext} (this0 this : EmailService.t Ext)
    (log : list (string * Settled)) :
  consistent this0 →
  history this0 log this →
  ∀ id,
    EmailService.getStatus this id
    = default (EmailService.getStatus this0 id) (last (returned_for id log)).
Proof.
  intros Hcons. induction 1 as [this|this log mid email id0 ext Hhist IH]; intros id.
  { done. }
  pose proof (history_consistent _ _ _ Hcons Hhist) as Hmid.
  pose proof (send_with_step EmailService.default_retries
                EmailService.default_delay mid email id0 ext Hmid) as Hstep.
  unfold EmailService.send.
  destruct (EmailService.send_with _ _ _ _ _ _) as [[[r this'] ext'] evs].
  cbn [fst snd] in *. specialize (IH Hcons id).
  unfold returned_for in *. rewrite omap_app, last_app. simpl.
  unfold EmailService.getStatus in *.
  destruct Hstep as (_ & [(status & -> & Hlog & _)
                         |(p & e & te & x & _ & _ & _ & -> & _ & _ & Hlog & _)]);
    rewrite Hlog.
  - destruct (decide (id0 = id)) as [->|Hne]; simpl.
    + by rewrite lookup_insert_eq.
    + by rewrite lookup_insert_ne.
  - by destruct (decide (id0 = id)).
Qed.

(** X7. On a service built by the constructor, after any calls of
    [send], [getStatus(id)] is the value returned by the most recent call
    for [id] that returned, and [undefined] when no call for [id] has
    returned; a call that threw counts for nothing. *)
Theorem getStatus_is_last_outcome `{Runtime Ext}
    (providers : list (Provider Ext)) (log : list (string * Settled))
    (this : EmailService.t Ext) (id : string) :
  history (EmailService.constructor providers) log this →
  EmailService.getStatus this id = default undefined (last (returned_for id log)).
Proof.
  intros Hhist.
  exact (history_status _ _ _ (constructor_consistent providers) Hhist id).
Qed.

Lemma getStatus_is_last_outcome_witness :
  EmailService.getStatus service_sent "email-0"
  = default undefined
      (last (returned_for "email-0"
               ([] ++ [("email-0",
                        (EmailService.send service hello "email-0" 0).1.1.1)])))
  ∧ EmailService.getStatus
      (EmailService.send service_rejecting hello "email-0" 0).1.1.2 "email-0"
    = default undefined
        (last (returned_for "email-0"
                 ([] ++ [("email-0",
                          (EmailService.send service_rejecting hello
                             "email-0" 0).1.1.1)]))).
Proof.
  split.
  - exact (getStatus_is_last_outcome
             (EmailService.providers service) _ _ "email-0"
             (history_snoc service [] service hello "email-0" 0
                (history_nil service))).
  - exact (getStatus_is_last_outcome
             (EmailService.providers service_rejecting) _ _ "email-0"
             (history_snoc service_rejecting [] service_rejecting hello
                "email-0" 0 (history_nil service_rejecting))).
Defined.

(** X8. On a service built by the constructor, "Duplicate skipped" is
    returned only for an id for which an earlier call returned "Sent via
    ...". *)
Theorem duplicate_only_after_delivery `{Runtime Ext}
    (providers : list (Provider Ext)) (log : list (string * Settled))
    (this : EmailService.t Ext) :
  history (EmailService.constructor providers) log this →
  ∀ (k : nat) (id : string),
    log !! k = Some (id, Fulfilled (str "Duplicate skipped")) →
    ∃ (j : nat) (n : string),
      (j < k)%nat ∧ log !! j = Some (id, Fulfilled (str ("Sent via " +:+ n))).
Proof.
  pose proof (constructor_consistent providers) as Hcons.
  remember (EmailService.constructor providers) as this0 eqn:Hthis0.
  induction 1 as [this|this log mid email id0 ext Hhist IH]; intros k id Hk.
  { by rewrite lookup_nil in Hk. }
  destruct (decide (k < length log)%nat) as [Hlt|Hge].
  - rewrite lookup_app_l in Hk by done.
    destruct (IH Hthis0 Hcons k id Hk) as (j & n & Hj & Hlook).
    exists j, n. split; [done|]. rewrite lookup_app_l by lia. done.
  - rewrite lookup_app_r in Hk by lia.
    destruct (k - length log)%nat as [|k'] eqn:Hk'; [|by destruct k'].
    simpl in Hk. injection Hk as -> Hr.
    pose proof (history_consistent _ _ _ Hcons Hhist) as Hmid.
    pose proof (send_with_step EmailService.default_retries
                  EmailService.default_delay mid email id ext Hmid) as Hstep.
    unfold EmailService.send in Hr.
    destruct (EmailService.send_with _ _ _ _ _ _) as [[[r this'] ext'] evs].
    cbn [fst snd] in Hr. subst r.
    destruct Hstep as (_ & [(status & Hst & _ & Hcase)
                           |(p & e & te & x & _ & _ & _ & Hst & _)]); [|done].
    injection Hst as <-.
    destruct status_distinct as (Hd1 & _ & Hd3).
    destruct Hcase as [(Heq & _)|[(_ & _ & Hin & _)|[(Heq & _)
                      |(p & _ & Heq & _)]]].
    + congruence.
    + apply (history_sent _ _ _ Hcons Hhist) in Hin as [Hin|[n Hn]].
      * subst this. simpl in Hin. by apply not_elem_of_empty in Hin.
      * apply list_elem_of_lookup in Hn as [j Hj]. exists j, n.
        pose proof (lookup_lt_Some _ _ _ Hj). split; [lia|].
        by rewrite lookup_app_l.
    + congruence.
    + destruct (sent_via_distinct (name p)) as (_ & Hne & _). congruence.
Qed.

Lemma duplicate_only_after_delivery_witness :
  ∃ (j : nat) (n : string),
    (j < 1)%nat
    ∧ (([] ++ [("email-0", (EmailService.send service hello "email-0" 0).1.1.1)])
         ++ [("email-0",
              (EmailService.send service_sent hello "email-0" 5000).1.1.1)])
        !! j
      = Some ("email-0", Fulfilled (str ("Sent via " +:+ n))).
Proof.
  refine (duplicate_only_after_delivery
            (EmailService.providers service) _ _
            (history_snoc service _ service_sent hello "email-0" 5000
               (history_snoc service [] service hello "email-0" 0
                  (history_nil service)))
            1%nat "email-0" _).
  vm_compute. reflexivity.
Defined.

(** From a fresh service the limiter holds at most one timestamp per
    call made, and keeps its limit of five. *)
Lemma history_limiter `{Runtime Ext} (providers : list (Provider Ext))
    (log : list (string * Settled)) (this : EmailService.t Ext) :
  history (EmailService.constructor providers) log this →
  RateLimiter.limit (EmailService.rateLimiter this) = 5
  ∧ RateLimiter.interval (EmailService.rateLimiter this) = 10000
  ∧ (length (RateLimiter.timestamps (EmailService.rateLimiter this))
     ≤ length log)%nat
  ∧ Z.of_nat (length (RateLimiter.timestamps (EmailService.rateLimiter this))) ≤ 5.
Proof.
  pose proof (constructor_consistent providers) as Hcons.
  remember (EmailService.constructor providers) as this0 eqn:Hthis0.
  induction 1 as [this|this log mid email id ext Hhist IH].
  { subst this. simpl. repeat split; (done || lia). }
  destruct (IH Hthis0 Hcons) as (Hlim & Hint & Hlen & Hcap).
  pose proof (history_consistent _ _ _ Hcons Hhist) as Hmid.
  pose proof (send_with_step EmailService.default_retries
                EmailService.default_delay mid email id ext Hmid) as Hstep.
  unfold EmailService.send.
  destruct (EmailService.send_with _ _ _ _ _ _) as [[[r this'] ext'] evs].
  cbn [fst snd] in *.
  destruct Hstep as (Hrl & _). rewrite Hrl.
  pose proof (allow_at_config (date_now ext).1 (EmailService.rateLimiter mid))
    as [Hlim' Hint'].
  pose proof (allow_at_timestamps (date_now ext).1 (EmailService.rateLimiter mid))
    as Hts.
  pose proof (allow_at_admits (date_now ext).1 (EmailService.rateLimiter mid))
    as Hadm.
  pose proof (length_filter
                (λ ts, (date_now ext).1 - ts
                       < RateLimiter.interval (EmailService.rateLimiter mid))
                (RateLimiter.timestamps (EmailService.rateLimiter mid))) as Hkept.
  simpl in Hts. rewrite Hlim', Hint', Hts, length_app. simpl.
  split; [done|]. split; [done|].
  destruct (RateLimiter.allow_at _ _).1.
  - destruct Hadm as [Hadm _]. specialize (Hadm eq_refl).
    rewrite length_app. simpl. lia.
  - lia.
Qed.

(** X9. The first five calls of [send] on a service built by the
    constructor are never answered "Rate limited", whatever their ids,
    the providers and the clock. *)
Theorem first_five_sends_admitted `{Runtime Ext}
    (providers : list (Provider Ext)) (log : list (string * Settled))
    (this : EmailService.t Ext) :
  history (EmailService.constructor providers) log this →
  ∀ (k : nat) (id : string) (r : Settled),
    (k < 5)%nat →
    log !! k = Some (id, r) →
    r ≠ Fulfilled (str "Rate limited").
Proof.
  pose proof (constructor_consistent providers) as Hcons.
  remember (EmailService.constructor providers) as this0 eqn:Hthis0.
  induction 1 as [this|this log mid email id0 ext Hhist IH]; intros k id r Hk5 Hk.
  { by rewrite lookup_nil in Hk. }
  destruct (decide (k < length log)%nat) as [Hlt|Hge].
  { rewrite lookup_app_l in Hk by done. by apply (IH Hthis0 Hcons k id r). }
  rewrite lookup_app_r in Hk by lia.
  destruct (k - length log)%nat as [|k'] eqn:Hk'; [|by destruct k'].
  simpl in Hk. injection Hk as -> Hr.
  pose proof (history_consistent _ _ _ Hcons Hhist) as Hmid.
  subst this. destruct (history_limiter _ _ _ Hhist) as (Hlim & _ & Hlen & _).
  pose proof (send_with_step EmailService.default_retries
                EmailService.default_delay mid email id ext Hmid) as Hstep.
  unfold EmailService.send in Hr.
  destruct (EmailService.send_with _ _ _ _ _ _) as [[[r' this'] ext'] evs].
  cbn [fst snd] in Hr. subst r'.
  destruct Hstep as (_ & [(status & -> & _ & Hcase)
                         |(p & e & te & x & _ & _ & _ & -> & _)]); [|done].
  intros Heq. injection Heq as ->.
  destruct status_distinct as (Hd1 & Hd2 & _).
  destruct Hcase as [(_ & Hrefused & _)|[(Heq & _)|[(Heq & _)|(p & _ & Heq & _)]]].
  - apply not_true_iff_false in Hrefused. apply Hrefused.
    apply allow_at_admits. rewrite Hlim.
    pose proof (length_filter
                  (λ ts, (date_now ext).1 - ts
                         < RateLimiter.interval (EmailService.rateLimiter mid))
                  (RateLimiter.timestamps (EmailService.rateLimiter mid))) as Hkept.
    lia.
  - congruence.
  - congruence.
  - destruct (sent_via_distinct (name p)) as (Hne & _ & _). congruence.
Qed.

Lemma first_five_sends_admitted_witness :
  (EmailService.send service_sent hello "email-0" 5000).1.1.1
  ≠ Fulfilled (str "Rate limited").
Proof.
  refine (first_five_sends_admitted
            (EmailService.providers service) _ _
            (history_snoc service _ service_sent hello "email-0" 5000
               (history_snoc service [] service hello "email-0" 0
                  (history_nil service)))
            1%nat "email-0" _ _ _).
  - lia.
  - reflexivity.
Defined.

(** ** send: the refused call *)

(** X10. A [send] that the limiter refuses does no work: it returns
    "Rate limited" without invoking a provider, logging or waiting;
    providers, breakers and sent ids are as before, and the limiter has
    only pruned its timestamps, recording nothing.  The stored status of
    the id is overwritten with "Rate limited". *)
Theorem send_rate_limited_frame `{Runtime Ext} (this : EmailService.t Ext)
    (email : Email) (id : string) (ext : Ext) :
  (RateLimiter.allow (EmailService.rateLimiter this) ext).1.1.1 = false →
  let now := (date_now ext).1 in
  let limiter := EmailService.rateLimiter this in
  let '(r, this', _, evs) := EmailService.send this email id ext in
  r = Fulfilled (str "Rate limited")
  ∧ evs = []
  ∧ EmailService.providers this' = EmailService.providers this
  ∧ EmailService.circuitBreakers this' = EmailService.circuitBreakers this
  ∧ EmailService.sentEmails this' = EmailService.sentEmails this
  ∧ RateLimiter.timestamps (EmailService.rateLimiter this')
    = filter (λ ts, now - ts < RateLimiter.interval limiter)
             (RateLimiter.timestamps limiter)
  ∧ EmailService.statusLog this'
    = <[id := "Rate limited"]> (EmailService.statusLog this)
  ∧ EmailService.getStatus this' id = str "Rate limited".
Proof.
  intros Hrefused now limiter.
  pose proof (allow_at_timestamps now limiter) as Hts.
  rewrite RateLimiter_allow_run in Hrefused. simpl in Hrefused, Hts.
  unfold EmailService.send. rewrite send_with_run. subst now limiter.
  destruct (RateLimiter.allow_at _ _) as [allowed limiter'].
  simpl in Hrefused, Hts. subst allowed. simpl.
  unfold EmailService.getStatus. simpl. rewrite lookup_insert_eq.
  repeat split; done.
Qed.

Lemma send_rate_limited_frame_witness :
  let now := (date_now 5000).1 in
  let limiter := EmailService.rateLimiter service_full in
  let '(r, this', _, evs) := EmailService.send service_full hello "email-0" 5000 in
  r = Fulfilled (str "Rate limited")
  ∧ evs = []
  ∧ EmailService.providers this' = EmailService.providers service_full
  ∧ EmailService.circuitBreakers this' = EmailService.circuitBreakers service_full
  ∧ EmailService.sentEmails this' = EmailService.sentEmails service_full
  ∧ RateLimiter.timestamps (EmailService.rateLimiter this')
    = filter (λ ts, now - ts < RateLimiter.interval limiter)
             (RateLimiter.timestamps limiter)
  ∧ EmailService.statusLog this'
    = <["email-0" := "Rate limited"]> (EmailService.statusLog service_full)
  ∧ EmailService.getStatus this' "email-0" = str "Rate limited".
Proof.
  refine (send_rate_limited_frame service_full hello "email-0" 5000 _).
  vm_compute. reflexivity.
Defined.

(** ** send: what stays true of a service *)

Lemma sends_history `{Runtime Ext} (this this' : EmailService.t Ext) :
  sends this this' → ∃ log, history this log this'.
Proof.
  induction 1 as [this|this mid email id ext _ [log Hlog]].
  - exists []. constructor.
  - eexists. by constructor.
Qed.

(** The provider loop keeps any property of the breakers that
    [reset()] and [recordFailure()] keep. *)
Lemma try_providers_breakers `{Runtime Ext} (P : CircuitBreaker.t → Prop)
    (retries delay : Z) (email : Email) (id : string)
    (rest : list (Provider Ext)) :
  (∀ b, P b → P (CircuitBreaker.reset b)) →
  (∀ b now, P b →
     P (CircuitBreaker.mk (CircuitBreaker.failureThreshold b)
          (CircuitBreaker.recoveryTime b) (CircuitBreaker.failures b + 1) now)) →
  ∀ (i : nat) (this : EmailService.t Ext) (ext : Ext),
    Forall P (EmailService.circuitBreakers this) →
    Forall P (EmailService.circuitBreakers
                (EmailService.try_providers retries delay email id rest i this ext).1.1.2).
Proof.
  intros Hreset Hfail. induction rest as [|provider rest IH]; intros i this ext HP.
  { by rewrite try_providers_nil. }
  rewrite try_providers_cons.
  destruct (EmailService.circuitBreakers this !! i) as [breaker|] eqn:Hi; [|done].
  assert (P breaker) as Hb.
  { rewrite Forall_forall in HP. apply HP. by eapply list_elem_of_lookup_2. }
  destruct (CircuitBreaker.allow breaker ext) as [[allowed ext1] evs0].
  destruct allowed; [|by apply IH].
  destruct (EmailService.retryWithBackoff _ retries delay ext1)
    as [[[v|err] ext2] evs].
  - simpl. apply Forall_insert; [done|]. by apply Hreset.
  - destruct (read_message err) as [type_error|detail]; [done|].
    specialize (IH (S i) (failed_at this i breaker (date_now ext2).1)
                   (date_now ext2).2).
    destruct (EmailService.try_providers _ _ _ _ _ _ _ _)
      as [[[r this'] ext3] evs3].
    simpl in *. apply IH. apply Forall_insert; [done|]. by apply Hfail.
Qed.

(** X11. What stays true of a service built by the constructor and used
    through [send]: the limiter keeps its limit of 5 per 10000 ms and
    never holds more than five timestamps; there is one breaker per
    provider, each with threshold 3, recovery time 10000 and a count that
    is not negative; every id marked as sent has a stored status, and
    every stored status is one of the four statuses of [send]. *)
Theorem reachable_invariant `{Runtime Ext} (this : EmailService.t Ext) :
  reachable this →
  RateLimiter.limit (EmailService.rateLimiter this) = 5
  ∧ RateLimiter.interval (EmailService.rateLimiter this) = 10000
  ∧ Z.of_nat (length (RateLimiter.timestamps (EmailService.rateLimiter this))) ≤ 5
  ∧ length (EmailService.circuitBreakers this)
    = length (EmailService.providers this)
  ∧ Forall (λ b, CircuitBreaker.failureThreshold b = 3
                 ∧ CircuitBreaker.recoveryTime b = 10000
                 ∧ 0 ≤ CircuitBreaker.failures b)
           (EmailService.circuitBreakers this)
  ∧ (∀ id, id ∈ EmailService.sentEmails this →
           is_Some (EmailService.statusLog this !! id))
  ∧ (∀ id status, EmailService.statusLog this !! id = Some status →
                  terminal_outcome this status).
Proof.
  intros [providers Hsends].
  pose proof (constructor_consistent providers) as Hcons.
  destruct (sends_history _ _ Hsends) as [log Hhist].
  destruct (history_limiter _ _ _ Hhist) as (Hlim & Hint & _ & Hcap).
  split; [done|]. split; [done|]. split; [done|].
  split; [exact (history_consistent _ _ _ Hcons Hhist)|].
  clear Hhist Hlim Hint Hcap log.
  remember (EmailService.constructor providers) as this0 eqn:Hthis0.
  induction Hsends as [this|this mid email id0 ext Hsends IH].
  { subst this. simpl. split; [|split].
    - apply Forall_fmap, Forall_forall. intros p _. simpl. lia.
    - intros id Hin. by apply not_elem_of_empty in Hin.
    - intros id status Hlook. by rewrite lookup_empty in Hlook. }
  destruct (IH Hthis0 Hcons) as (Hcbs & Hsent & Hlog).
  assert (consistent mid) as Hmid.
  { apply sends_invariant in Hsends as (Hp & Hlen & _).
    unfold consistent in *. congruence. }
  pose proof (send_with_step EmailService.default_retries
                EmailService.default_delay mid email id0 ext Hmid) as Hstep.
  pose proof (send_with_outcome EmailService.default_retries
                EmailService.default_delay mid email id0 ext) as Hout.
  assert (Forall (λ b, CircuitBreaker.failureThreshold b = 3
                       ∧ CircuitBreaker.recoveryTime b = 10000
                       ∧ 0 ≤ CircuitBreaker.failures b)
            (EmailService.circuitBreakers
               (EmailService.send mid email id0 ext).1.1.2)) as Hcbs'.
  { unfold EmailService.send. rewrite send_with_run.
    destruct (RateLimiter.allow_at _ _) as [allowed limiter].
    destruct allowed; [|done]. case_decide; [done|].
    apply try_providers_breakers; [| |done].
    - intros b (? & ? & ?). simpl. repeat split; (done || lia).
    - intros b now (? & ? & ?). simpl. repeat split; (done || lia). }
  split; [exact Hcbs'|]. clear Hcbs'.
  unfold EmailService.send.
  destruct (EmailService.send_with _ _ _ _ _ _) as [[[r this'] ext'] evs].
  cbn [fst snd] in *.
  destruct Hout as (Hp & _ & Hsub & _).
  destruct Hstep as (_ & [(status & -> & Hlog' & Hcase)
                         |(p & e & te & x & _ & _ & _ & -> & _ & _ & Hlog' & Hs)]).
  2:{ rewrite Hlog', Hs. split; [done|].
      intros id st Hlook. specialize (Hlog id st Hlook).
      unfold terminal_outcome in *. by rewrite Hp. }
  assert (terminal_outcome this' status
          ∧ (EmailService.sentEmails this' = EmailService.sentEmails mid
             ∨ EmailService.sentEmails this'
               = {[id0]} ∪ EmailService.sentEmails mid)) as [Hterm Hs].
  { unfold terminal_outcome. rewrite Hp.
    destruct Hcase as [(-> & _ & Hs)|[(-> & _ & _ & Hs)|[(-> & _ & _ & Hs)
                      |(p & Hin & -> & _ & _ & Hs)]]]; (split; [|eauto]).
    - by left.
    - right. by left.
    - right. right. by left.
    - right. right. right. by exists p. }
  split.
  - intros id Hin. rewrite Hlog'. destruct (decide (id0 = id)) as [->|Hne].
    + rewrite lookup_insert_eq. by eexists.
    + rewrite lookup_insert_ne by done. apply Hsent.
      destruct Hs as [Hs|Hs]; rewrite Hs in Hin; [done|].
      apply elem_of_union in Hin as [Hin|Hin]; [|done].
      apply elem_of_singleton in Hin. congruence.
  - intros id st Hlook. rewrite Hlog' in Hlook.
    destruct (decide (id0 = id)) as [->|Hne].
    + rewrite lookup_insert_eq in Hlook. by injection Hlook as <-.
    + rewrite lookup_insert_ne in Hlook by done.
      specialize (Hlog id st Hlook). unfold terminal_outcome in *.
      by rewrite Hp.
Qed.

Lemma reachable_invariant_witness :
  reachable service_sent
  ∧ Forall (λ b, CircuitBreaker.failureThreshold b = 3
                 ∧ CircuitBreaker.recoveryTime b = 10000
                 ∧ 0 ≤ CircuitBreaker.failures b)
           (EmailService.circuitBreakers service_sent).
Proof.
  assert (reachable service_sent) as Hreach.
  { exists (EmailService.providers service).
    exact (sends_step service service hello "email-0" 0 (sends_refl service)). }
  split; [exact Hreach|].
  apply (reachable_invariant service_sent Hreach).
Defined.

(** ** retryWithBackoff: how long it waits *)


Lemma total_backoff (delay : Z) (n : nat) :
  ∀ k, 0 ≤ k →
    total ((λ j, delay * 2 ^ j) <$> seqZ k (Z.of_nat n))
    = delay * (2 ^ (k + Z.of_nat n) - 2 ^ k).
Proof.
  induction n as [|n IH]; intros k Hk.
  { simpl. rewrite Z.add_0_r. lia. }
  rewrite Nat2Z.inj_succ, (seqZ_cons k) by lia.
  replace (Z.pred (Z.succ (Z.of_nat n))) with (Z.of_nat n) by lia.
  rewrite fmap_cons. unfold total in *. cbn [foldr].
  rewrite IH by lia.
  replace (Z.succ k + Z.of_nat n) with (k + Z.succ (Z.of_nat n)) by lia.
  rewrite (Z.pow_succ_r 2 k) by lia. lia.
Qed.

(** The trace of a retried call with [retries >= 1]. *)
Lemma retryWithBackoff_trace `{Runtime Ext} (tag : nat) (f : Async Ext)
    (retries delay : Z) (ext : Ext) :
  1 ≤ retries →
  ∃ errs,
    (EmailService.retryWithBackoff (call tag f) retries delay ext).2
    = backoff_trace tag delay 1 errs
        (EmailService.retryWithBackoff (call tag f) retries delay ext).1.1
    ∧ Z.of_nat (length errs) < retries
    ∧ (is_rejected
         (EmailService.retryWithBackoff (call tag f) retries delay ext).1.1 = true →
       Z.of_nat (length errs) + 1 = retries).
Proof.
  intros Hretries. unfold EmailService.retryWithBackoff.
  destruct (retry_loop_trace tag f retries delay (Z.to_nat retries) 0 ext)
    as (errs & Htrace & Hlen & Hrej); [lia|lia|].
  exists errs. split; [done|]. split; [lia|]. intros Hr. specialize (Hrej Hr). lia.
Qed.

(** X12. With [retries >= 1], a retried call that made [n] invocations
    has waited [delay * (2^n - 2)] milliseconds in all; for a delay that
    is not negative this is at most [delay * (2^retries - 2)], that is
    3000 ms with the defaults 3 and 500. *)
Theorem retryWithBackoff_total_wait `{Runtime Ext} (tag : nat) (f : Async Ext)
    (retries delay : Z) (ext : Ext) :
  1 ≤ retries →
  let '(_, _, evs) := EmailService.retryWithBackoff (call tag f) retries delay ext in
  total (delays evs) = delay * (2 ^ Z.of_nat (length (invocations evs)) - 2)
  ∧ (0 ≤ delay → total (delays evs) ≤ delay * (2 ^ retries - 2)).
Proof.
  intros Hretries.
  destruct (retryWithBackoff_trace tag f retries delay ext Hretries)
    as (errs & Htrace & Hlen & _).
  destruct (EmailService.retryWithBackoff _ _ _ _) as [[r ext'] evs].
  cbn [fst snd] in *. subst evs.
  rewrite delays_backoff_trace, invocations_backoff_trace, length_replicate.
  rewrite total_backoff by lia.
  replace (1 + Z.of_nat (length errs)) with (Z.of_nat (S (length errs))) by lia.
  change (2 ^ 1) with 2. split; [done|].
  intros Hdelay. apply Z.mul_le_mono_nonneg_l; [done|].
  assert (2 ^ Z.of_nat (S (length errs)) ≤ 2 ^ retries); [|lia].
  apply Z.pow_le_mono_r; lia.
Qed.

Lemma retryWithBackoff_total_wait_witness :
  let '(_, _, evs) :=
    EmailService.retryWithBackoff
      (call 0 (MockEmailProvider.sendEmail ProviderA_down hello)) 3 500 0 in
  total (delays evs) = 500 * (2 ^ Z.of_nat (length (invocations evs)) - 2)
  ∧ (0 ≤ 500 → total (delays evs) ≤ 500 * (2 ^ 3 - 2)).
Proof.
  apply (retryWithBackoff_total_wait 0
           (MockEmailProvider.sendEmail ProviderA_down hello) 3 500 0).
  lia.
Defined.

(** ** send: how much work one call can cause *)

Lemma delays_app (evs1 evs2 : list Event) :
  delays (evs1 ++ evs2) = delays evs1 ++ delays evs2.
Proof. apply omap_app. Qed.

Lemma logged_app (evs1 evs2 : list Event) :
  logged (evs1 ++ evs2) = logged evs1 ++ logged evs2.
Proof. apply omap_app. Qed.




(** ** send: when every provider fails *)

Lemma retryWithBackoff_rejected_trace `{Runtime Ext} (tag : nat) (f : Async Ext)
    (retries delay : Z) (ext : Ext) :
  1 ≤ retries →
  (∀ ext, is_rejected (f ext).1 = true) →
  ∃ err ext' errs,
    EmailService.retryWithBackoff (call tag f) retries delay ext
    = (Rejected err, ext', backoff_trace tag delay 1 errs (Rejected err))
    ∧ Z.of_nat (length errs) + 1 = retries
    ∧ ∃ x, (f x).1 = Rejected err.
Proof.
  intros Hretries Hf.
  pose proof (retry_loop_rejected tag f retries delay Hf (Z.to_nat retries) 0 ext)
    as Hrej.
  pose proof (retry_loop_rejection tag f retries delay) as Hgenuine.
  destruct (retryWithBackoff_trace tag f retries delay ext Hretries)
    as (errs & Htrace & _ & Hcount).
  unfold EmailService.retryWithBackoff in *.
  destruct (EmailService.retry_loop _ _ _ _ _ _) as [[[v|err] ext'] evs] eqn:Hrun;
    cbn [fst snd] in *; [discriminate Hrej; lia|].
  exists err, ext', errs. split; [by rewrite Htrace|].
  split; [by apply Hcount|].
  apply (Hgenuine err (Z.to_nat retries) 0 ext). by rewrite Hrun.
Qed.

Lemma try_providers_all_fail `{Runtime Ext} (retries delay : Z) (email : Email)
    (id : string) (rest : list (Provider Ext)) :
  1 ≤ retries →
  ∀ (i : nat) (this : EmailService.t Ext) (ext : Ext),
    length (EmailService.circuitBreakers this) = (i + length rest)%nat →
    (∀ p, p ∈ rest → ∀ m x, is_rejected (sendEmail p m x).1 = true) →
    Forall never_nullish rest →
    (∀ j b, (i ≤ j)%nat → EmailService.circuitBreakers this !! j = Some b →
            CircuitBreaker.failures b < CircuitBreaker.failureThreshold b) →
    let '(r, this', _, evs) :=
      EmailService.try_providers retries delay email id rest i this ext in
    r = Fulfilled (str "All providers failed")
    ∧ invocations evs
      = seq i (length rest) ≫= (λ j, replicate (Z.to_nat retries) j)
    ∧ delays evs
      = seq i (length rest)
          ≫= (λ _, (λ k, delay * 2 ^ k) <$> seqZ 1 (retries - 1))
    ∧ (logged evs).*1
      = (λ p, "[LOG] Provider " +:+ name p +:+ " failed:") <$> rest
    ∧ EmailService.sentEmails this' = EmailService.sentEmails this
    ∧ (∀ j b, EmailService.circuitBreakers this !! j = Some b →
              ∃ b', EmailService.circuitBreakers this' !! j = Some b'
                    ∧ if decide (i ≤ j)%nat then bumped b b' else b' = b).
Proof.
  intros Hretries. induction rest as [|provider rest IH];
    intros i this ext Hlen Hfail Hclean Hclosed.
  { rewrite try_providers_nil. simpl. repeat split; try done.
    intros j b Hj. exists b. split; [done|]. case_decide; [|done].
    apply lookup_lt_Some in Hj. simpl in Hlen. lia. }
  simpl in Hlen. apply Forall_cons in Hclean as [Hclean1 Hclean].
  destruct (lookup_lt_is_Some_2 (EmailService.circuitBreakers this) i)
    as [breaker Hbreaker]; [lia|].
  rewrite try_providers_cons, Hbreaker.
  rewrite CircuitBreaker_allow_closed by (by apply (Hclosed i)).
  destruct (retryWithBackoff_rejected_trace i (sendEmail provider email)
              retries delay ext Hretries)
    as (err & ext2 & errs & -> & Hcount & x & Hx).
  { apply Hfail. by apply elem_of_cons; left. }
  specialize (Hclean1 email x). rewrite Hx in Hclean1.
  apply read_message_value in Hclean1 as [detail ->].
  specialize (IH (S i) (failed_at this i breaker (date_now ext2).1)
                 (date_now ext2).2).
  destruct (EmailService.try_providers _ _ _ _ _ _ _ _)
    as [[[r this'] ext3] evs3].
  simpl in IH. rewrite length_insert in IH.
  destruct IH as (-> & Hinv & Hdel & Hlog & Hsent & Hcbs).
  { lia. }
  { intros p Hp. apply Hfail. by apply elem_of_cons; right. }
  { exact Hclean. }
  { intros j b Hj Hb. rewrite list_lookup_insert_ne in Hb by lia.
    apply (Hclosed j); [lia|done]. }
  rewrite invocations_app, delays_app, logged_app.
  change (invocations (Logged _ _ :: evs3)) with (invocations evs3).
  change (delays (Logged _ _ :: evs3)) with (delays evs3).
  change (logged (Logged ?a ?b :: evs3)) with ((a, b) :: logged evs3).
  rewrite invocations_backoff_trace, delays_backoff_trace, logged_backoff_trace.
  rewrite Hinv, Hdel. cbn [length seq]. rewrite !bind_cons.
  replace (Z.of_nat (length errs)) with (retries - 1) by lia.
  replace (S (length errs)) with (Z.to_nat retries) by lia.
  split; [done|]. split; [done|]. split; [done|].
  split; [by rewrite app_nil_l, !fmap_cons, Hlog|]. split; [done|].
  intros j b Hb. destruct (decide (j = i)) as [->|Hne].
  - destruct (Hcbs i (CircuitBreaker.mk (CircuitBreaker.failureThreshold breaker)
                        (CircuitBreaker.recoveryTime breaker)
                        (CircuitBreaker.failures breaker + 1) (date_now ext2).1))
      as (b' & Hb' & Hsame).
    { apply list_lookup_insert_eq. lia. }
    rewrite decide_False in Hsame by lia. subst b'.
    eexists. split; [exact Hb'|]. rewrite decide_True by lia.
    simplify_eq. done.
  - destruct (Hcbs j b) as (b' & Hb' & Hsame).
    { by rewrite list_lookup_insert_ne. }
    exists b'. split; [done|].
    destruct (decide (S i ≤ j)%nat); [by rewrite decide_True by lia|].
    by rewrite decide_False by lia.
Qed.

(** X14. When every provider always fails, with an [Error] or any
    other value that is not [undefined] or [null], and no breaker has
    reached its threshold, an admitted [send] for a new id invokes every
    provider exactly three times, in list order, waiting 1000 and then
    2000 ms between the attempts on one provider; it logs one line per
    provider, counts one more failure on every breaker, marks nothing as
    sent and returns "All providers failed". *)
Theorem send_all_providers_fail `{Runtime Ext} (this : EmailService.t Ext)
    (email : Email) (id : string) (ext : Ext) :
  consistent this →
  (RateLimiter.allow (EmailService.rateLimiter this) ext).1.1.1 = true →
  id ∉ EmailService.sentEmails this →
  (∀ p, p ∈ EmailService.providers this →
        ∀ m x, is_rejected (sendEmail p m x).1 = true) →
  Forall never_nullish (EmailService.providers this) →
  Forall (λ b, CircuitBreaker.failures b < CircuitBreaker.failureThreshold b)
         (EmailService.circuitBreakers this) →
  let n := length (EmailService.providers this) in
  let '(r, this', _, evs) := EmailService.send this email id ext in
  r = Fulfilled (str "All providers failed")
  ∧ invocations evs = seq 0 n ≫= (λ j, replicate 3 j)
  ∧ delays evs = seq 0 n ≫= (λ _, [1000; 2000])
  ∧ (logged evs).*1
    = (λ p, "[LOG] Provider " +:+ name p +:+ " failed:")
        <$> EmailService.providers this
  ∧ EmailService.sentEmails this' = EmailService.sentEmails this
  ∧ (∀ j b, EmailService.circuitBreakers this !! j = Some b →
            ∃ b', EmailService.circuitBreakers this' !! j = Some b'
                  ∧ bumped b b').
Proof.
  intros Hcons Hadmit Hnew Hfail Hclean Hclosed n. subst n.
  unfold EmailService.send. rewrite send_with_run.
  rewrite RateLimiter_allow_run in Hadmit. simpl in Hadmit.
  destruct (RateLimiter.allow_at _ _) as [allowed limiter].
  simpl in Hadmit. subst allowed. rewrite decide_False by done.
  pose proof (try_providers_all_fail EmailService.default_retries
                EmailService.default_delay email id (EmailService.providers this)
                ltac:(done) 0%nat (EmailService.set_rateLimiter limiter this)
                (date_now ext).2) as Hloop.
  cbv zeta.
  destruct (EmailService.try_providers _ _ _ _ _ _ _ _)
    as [[[r this'] ext3] evs3].
  destruct Hloop as (Hr & Hinv & Hdel & Hlog & Hsent & Hcbs).
  { exact Hcons. }
  { exact Hfail. }
  { exact Hclean. }
  { intros j b _ Hb. rewrite Forall_forall in Hclosed. apply Hclosed.
    by eapply list_elem_of_lookup_2. }
  split; [done|]. split; [exact Hinv|]. split; [exact Hdel|].
  split; [done|]. split; [done|].
  intros j b Hb. destruct (Hcbs j b Hb) as (b' & Hb' & Hbump).
  exists b'. split; [done|]. by rewrite decide_True in Hbump by lia.
Qed.

Lemma send_all_providers_fail_witness :
  let n := length (EmailService.providers service_down) in
  let '(r, this', _, evs) := EmailService.send service_down hello "email-0" 0 in
  r = Fulfilled (str "All providers failed")
  ∧ invocations evs = seq 0 n ≫= (λ j, replicate 3 j)
  ∧ delays evs = seq 0 n ≫= (λ _, [1000; 2000])
  ∧ (logged evs).*1
    = (λ p, "[LOG] Provider " +:+ name p +:+ " failed:")
        <$> EmailService.providers service_down
  ∧ EmailService.sentEmails this' = EmailService.sentEmails service_down
  ∧ (∀ j b, EmailService.circuitBreakers service_down !! j = Some b →
            ∃ b', EmailService.circuitBreakers this' !! j = Some b'
                  ∧ bumped b b').
Proof.
  refine (send_all_providers_fail service_down hello "email-0" 0 _ _ _ _ _ _).
  - reflexivity.
  - vm_compute. reflexivity.
  - vm_compute. intros Hin. discriminate Hin.
  - intros p Hp m x.
    apply elem_of_cons in Hp as [->|Hp]; [reflexivity|].
    apply list_elem_of_singleton in Hp as ->. reflexivity.
  - repeat constructor.
  - repeat constructor.
Defined.

(** ** MockEmailProvider under retry *)

(** A collaborator that fails with the same error whatever the outside
    world, and leaves the world alone. *)
Lemma retry_loop_constant_failure `{Runtime Ext} (tag : nat) (f : Async Ext)
    (e : Error) (retries delay : Z) :
  (∀ x, f x = (Rejected e, x)) →
  ∀ (left : nat) (attempt : Z) (ext : Ext),
    0 ≤ attempt < retries →
    (Z.to_nat (retries - attempt) ≤ left)%nat →
    EmailService.retry_loop left (call tag f) retries delay attempt ext
    = (Rejected e,
       foldl (λ x k, set_timeout (delay * 2 ^ k) x) ext
             (seqZ (attempt + 1) (retries - attempt - 1)),
       backoff_trace tag delay (attempt + 1)
         (replicate (Z.to_nat (retries - attempt - 1)) e) (Rejected e)).
Proof.
  intros Hf. induction left as [|left IH]; intros attempt ext Hatt Hleft; [lia|].
  simpl. destruct (Z.ltb_spec attempt retries); [|lia].
  unfold mbind, M_bind, call. rewrite Hf.
  destruct (Z.leb_spec retries (attempt + 1)).
  { replace (retries - attempt - 1) with 0 by lia. done. }
  unfold sleep. fold (call tag f).
  rewrite IH by lia.
  rewrite (seqZ_cons (attempt + 1)) by lia.
  replace (Z.to_nat (retries - attempt - 1))
    with (S (Z.to_nat (retries - (attempt + 1) - 1))) by lia.
  replace (Z.pred (retries - attempt - 1)) with (retries - (attempt + 1) - 1) by lia.
  replace (Z.succ (attempt + 1)) with (attempt + 1 + 1) by lia.
  done.
Qed.

(** X15. A mock provider under [retryWithBackoff] with [retries >= 1].
    With [shouldFail] set it is invoked exactly [retries] times, every
    attempt throws "<name> failed", that error is propagated, and the
    outside world changes by the waits only: [Math.random()] is never
    consulted.  With [shouldFail] unset and a first random draw of at
    most 0.7, the first attempt returns "<name> sent email to <to>": one
    invocation, one draw, no wait. *)
Theorem MockEmailProvider_retried `{Runtime Ext} (this : MockEmailProvider.t)
    (email : Email) (tag : nat) (retries delay : Z) (ext : Ext) :
  1 ≤ retries →
  let failure := mkError (MockEmailProvider.name this +:+ " failed") in
  let receipt :=
    str (MockEmailProvider.name this +:+ " sent email to " +:+ to email) in
  (MockEmailProvider.shouldFail this = true →
   EmailService.retryWithBackoff
     (call tag (MockEmailProvider.sendEmail this email)) retries delay ext
   = (Rejected failure,
      foldl (λ x k, set_timeout (delay * 2 ^ k) x) ext (seqZ 1 (retries - 1)),
      backoff_trace tag delay 1 (replicate (Z.to_nat (retries - 1)) failure)
        (Rejected failure)))
  ∧ (MockEmailProvider.shouldFail this = false →
     Qle_bool (math_random ext).1 (7 # 10) = true →
     EmailService.retryWithBackoff
       (call tag (MockEmailProvider.sendEmail this email)) retries delay ext
     = (Fulfilled receipt, (math_random ext).2, [Invoked tag (Fulfilled receipt)])).
Proof.
  intros Hretries failure receipt. split.
  - intros Hfail. unfold EmailService.retryWithBackoff.
    rewrite (retry_loop_constant_failure tag _ failure retries delay); try lia.
    + by replace (retries - 0 - 1) with (retries - 1) by lia.
    + intros x. unfold MockEmailProvider.sendEmail. by rewrite Hfail.
  - intros Hok Hdraw. unfold EmailService.retryWithBackoff.
    destruct (Z.to_nat retries) as [|left] eqn:Hn; [lia|].
    simpl. destruct (Z.ltb_spec 0 retries); [|lia].
    unfold mbind, M_bind, call, MockEmailProvider.sendEmail. rewrite Hok.
    destruct (math_random ext) as [draw ext1]. simpl in Hdraw.
    by rewrite Hdraw.
Qed.

Lemma MockEmailProvider_retried_witness :
  EmailService.retryWithBackoff
    (call 0 (MockEmailProvider.sendEmail ProviderA_down hello)) 3 500 0
  = (Rejected (mkError ("ProviderA" +:+ " failed")),
     foldl (λ x k, set_timeout (500 * 2 ^ k) x) 0 (seqZ 1 (3 - 1)),
     backoff_trace 0 500 1
       (replicate (Z.to_nat (3 - 1)) (mkError ("ProviderA" +:+ " failed")))
       (Rejected (mkError ("ProviderA" +:+ " failed"))))
  ∧ EmailService.retryWithBackoff
      (call 1 (MockEmailProvider.sendEmail ProviderB hello)) 3 500 0
    = (Fulfilled (str ("ProviderB" +:+ " sent email to " +:+ to hello)),
       (math_random 0).2,
       [Invoked 1
          (Fulfilled (str ("ProviderB" +:+ " sent email to " +:+ to hello)))]).
Proof.
  split.
  - apply (MockEmailProvider_retried ProviderA_down hello 0 3 500 0); [lia|].
    reflexivity.
  - apply (MockEmailProvider_retried ProviderB hello 1 3 500 0); [lia| |];
      reflexivity.
Defined.

(** ** send: the first provider delivers at once *)

Lemma retryWithBackoff_first_success `{Runtime Ext} (tag : nat) (f : Async Ext)
    (retries delay : Z) (ext : Ext) (v : Value) :
  1 ≤ retries →
  (f ext).1 = Fulfilled v →
  EmailService.retryWithBackoff (call tag f) retries delay ext
  = (Fulfilled v, (f ext).2, [Invoked tag (Fulfilled v)]).
Proof.
  intros Hretries Hok. unfold EmailService.retryWithBackoff.
  destruct (Z.to_nat retries) as [|left] eqn:Hn; [lia|].
  simpl. destruct (Z.ltb_spec 0 retries); [|lia].
  unfold mbind, M_bind, call, mret, M_ret.
  destruct (f ext) as [r1 ext1]. simpl in Hok. by subst r1.
Qed.

(** X16. When the limiter admits the call, the id is new, the first
    breaker has not reached its threshold and the first provider's first
    attempt succeeds, [send] makes that one invocation and nothing else:
    no wait, no log line, no other provider invoked.  It returns and
    stores "Sent via <name>", marks the id as sent and resets the first
    breaker; the other breakers are as before. *)
Theorem send_first_attempt_delivers `{Runtime Ext} (this : EmailService.t Ext)
    (email : Email) (id : string) (ext : Ext)
    (provider : Provider Ext) (rest : list (Provider Ext))
    (breaker : CircuitBreaker.t) (breakers : list CircuitBreaker.t) (v : Value) :
  EmailService.providers this = provider :: rest →
  EmailService.circuitBreakers this = breaker :: breakers →
  (RateLimiter.allow (EmailService.rateLimiter this) ext).1.1.1 = true →
  id ∉ EmailService.sentEmails this →
  CircuitBreaker.failures breaker < CircuitBreaker.failureThreshold breaker →
  (sendEmail provider email (date_now ext).2).1 = Fulfilled v →
  let '(r, this', ext', evs) := EmailService.send this email id ext in
  r = Fulfilled (str ("Sent via " +:+ name provider))
  ∧ evs = [Invoked 0 (Fulfilled v)]
  ∧ ext' = (sendEmail provider email (date_now ext).2).2
  ∧ EmailService.sentEmails this' = {[id]} ∪ EmailService.sentEmails this
  ∧ EmailService.circuitBreakers this' = CircuitBreaker.reset breaker :: breakers
  ∧ EmailService.getStatus this' id = str ("Sent via " +:+ name provider).
Proof.
  intros Hp Hcbs Hadmit Hnew Hclosed Hok.
  unfold EmailService.send. rewrite send_with_run.
  rewrite RateLimiter_allow_run in Hadmit. simpl in Hadmit.
  destruct (RateLimiter.allow_at _ _) as [allowed limiter].
  simpl in Hadmit. subst allowed. rewrite decide_False by done.
  rewrite Hp, try_providers_cons.
  cbn [EmailService.circuitBreakers EmailService.set_rateLimiter].
  rewrite Hcbs. cbn [lookup list_lookup].
  rewrite CircuitBreaker_allow_closed by done.
  rewrite (retryWithBackoff_first_success 0 _ _ _ _ v) by done.
  cbn [sent_by EmailService.circuitBreakers EmailService.sentEmails
       EmailService.set_circuitBreakers EmailService.set_rateLimiter
       EmailService.set_statusLog EmailService.set_sentEmails].
  rewrite Hcbs. unfold EmailService.getStatus.
  cbn [sent_by EmailService.statusLog EmailService.set_statusLog].
  rewrite lookup_insert_eq.
  repeat split; done.
Qed.

Lemma send_first_attempt_delivers_witness :
  let '(r, this', ext', evs) := EmailService.send service_up hello "email-0" 0 in
  r = Fulfilled (str ("Sent via " +:+ "ProviderA"))
  ∧ evs = [Invoked 0 (Fulfilled (str "ProviderA sent email to user0@example.com"))]
  ∧ ext' = (MockEmailProvider.sendEmail ProviderA hello (date_now 0).2).2
  ∧ EmailService.sentEmails this'
    = {["email-0"]} ∪ EmailService.sentEmails service_up
  ∧ EmailService.circuitBreakers this'
    = CircuitBreaker.reset CircuitBreaker.default :: [CircuitBreaker.default]
  ∧ EmailService.getStatus this' "email-0" = str ("Sent via " +:+ "ProviderA").
Proof.
  refine (send_first_attempt_delivers service_up hello "email-0" 0
            (MockEmailProvider.provider ProviderA)
            [MockEmailProvider.provider ProviderB]
            CircuitBreaker.default [CircuitBreaker.default]
            (str "ProviderA sent email to user0@example.com") _ _ _ _ _ _).
  - reflexivity.
  - reflexivity.
  - vm_compute. reflexivity.
  - vm_compute. intros Hin. discriminate Hin.
  - simpl. lia.
  - reflexivity.
Defined.

(** ** The self-executing test block *)

(** Every console line of the provider loop is the report of a failed
    provider. *)
Lemma try_providers_logged `{Runtime Ext} (retries delay : Z) (email : Email)
    (id : string) (rest : list (Provider Ext)) :
  1 ≤ retries →
  ∀ (i : nat) (this : EmailService.t Ext) (ext : Ext),
    Forall (λ line, String.prefix "[LOG]" line.1 = true)
           (logged (EmailService.try_providers retries delay email id rest i
                      this ext).2).
Proof.
  intros Hretries. induction rest as [|provider rest IH]; intros i this ext.
  { rewrite try_providers_nil. constructor. }
  rewrite try_providers_cons.
  destruct (EmailService.circuitBreakers this !! i) as [breaker|]; [|constructor].
  destruct (CircuitBreaker.allow breaker ext) as [[allowed ext1] evs0].
  destruct allowed; [|apply IH].
  destruct (retryWithBackoff_trace i (sendEmail provider email) retries delay
              ext1 Hretries) as (errs & Htrace & _).
  destruct (EmailService.retryWithBackoff _ retries delay ext1)
    as [[[v|err] ext2] evs]; cbn [fst snd] in *; subst evs.
  - rewrite logged_backoff_trace. constructor.
  - destruct (read_message err) as [type_error|detail].
    { cbn [fst snd]. rewrite logged_backoff_trace. constructor. }
    specialize (IH (S i) (failed_at this i breaker (date_now ext2).1)
                   (date_now ext2).2).
    destruct (EmailService.try_providers _ _ _ _ _ _ _ _)
      as [[[r this'] ext3] evs3].
    cbn [fst snd] in *. rewrite logged_app, logged_backoff_trace.
    change (logged (Logged ?a ?b :: evs3)) with ((a, b) :: logged evs3).
    constructor; [reflexivity|done].
Qed.

Lemma send_prints_nothing `{Runtime Ext} (this : EmailService.t Ext)
    (email : Email) (id : string) (ext : Ext) :
  printed (EmailService.send this email id ext).2 = [].
Proof.
  unfold printed, EmailService.send. rewrite send_with_run.
  destruct (RateLimiter.allow_at _ _) as [allowed limiter].
  destruct allowed; [|done]. case_decide; [done|].
  apply filter_none. eapply Forall_impl.
  - by apply (try_providers_logged EmailService.default_retries).
  - simpl. intros line Hline. congruence.
Qed.

Lemma test_id_inj (i j : nat) : test_id i = test_id j → i = j.
Proof.
  unfold test_id. intros Heq. simpl in Heq.
  injection Heq as Heq. by apply (inj pretty).
Qed.

Lemma test_id_printed (i : nat) : String.prefix "[LOG]" (test_id i) = false.
Proof. reflexivity. Qed.

(** The rounds of the self-test from round [i] on, on a service that
    has seen only the rounds before. *)
Lemma main_loop_rounds `{Runtime Ext} (left : nat) :
  ∀ (i : nat) (service : EmailService.t Ext) (ext : Ext),
    consistent service →
    Forall never_nullish (EmailService.providers service) →
    RateLimiter.limit (EmailService.rateLimiter service) = 5 →
    (length (RateLimiter.timestamps (EmailService.rateLimiter service)) ≤ i)%nat →
    (∀ id, id ∈ EmailService.sentEmails service →
           ∃ j, (j < i)%nat ∧ id = test_id j) →
    let '(r, service', _, evs) := main_loop left i service ext in
    r = Fulfilled undefined
    ∧ EmailService.providers service' = EmailService.providers service
    ∧ (∀ id, (∀ j, (i ≤ j)%nat → id ≠ test_id j) →
             EmailService.statusLog service' !! id
             = EmailService.statusLog service !! id)
    ∧ ∃ statuses,
        length statuses = left
        ∧ printed evs = zip (test_id <$> seq i left) statuses
        ∧ Forall (terminal_outcome service) statuses
        ∧ Forall (λ status, status ≠ "Duplicate skipped") statuses
        ∧ (∀ k status, statuses !! k = Some status → (i + k < 5)%nat →
                       status ≠ "Rate limited")
        ∧ (∀ k status, statuses !! k = Some status →
                       EmailService.getStatus service' (test_id (i + k))
                       = str status).
Proof.
  induction left as [|left IH]; intros i service ext Hcons Hclean Hlim Hlen Hsent.
  { simpl. repeat split; try done. exists []. repeat split; try done. }
  cbn [main_loop]. unfold mbind at 1. unfold M_bind at 1.
  pose proof (send_with_step EmailService.default_retries
                EmailService.default_delay service (test_email i) (test_id i)
                ext Hcons) as Hstep.
  pose proof (send_with_outcome EmailService.default_retries
                EmailService.default_delay service (test_email i) (test_id i) ext)
    as Hout.
  pose proof (send_prints_nothing service (test_email i) (test_id i) ext) as Hquiet.
  unfold EmailService.send in *.
  destruct (EmailService.send_with _ _ _ _ _ _) as [[[r s1] ext1] evs1].
  cbn [fst snd] in *.
  destruct Hout as (Hp & Hcbs & _ & _).
  destruct Hstep as (Hrl & [(status & -> & Hlog & Hcase)
                           |(p & e & te & x & Hin & Hx & Hnull & _)]).
  2:{ rewrite Forall_forall in Hclean. specialize (Hclean p Hin (test_email i) x).
      rewrite Hx in Hclean. congruence. }
  pose proof (allow_at_config (date_now ext).1 (EmailService.rateLimiter service))
    as [Hlim' _].
  pose proof (allow_at_timestamps (date_now ext).1 (EmailService.rateLimiter service))
    as Hts.
  pose proof (allow_at_admits (date_now ext).1 (EmailService.rateLimiter service))
    as Hadm.
  pose proof (length_filter
                (λ ts, (date_now ext).1 - ts
                       < RateLimiter.interval (EmailService.rateLimiter service))
                (RateLimiter.timestamps (EmailService.rateLimiter service)))
    as Hkept.
  simpl in Hts.
  assert (terminal_outcome service status
          ∧ status ≠ "Duplicate skipped"
          ∧ ((i < 5)%nat → status ≠ "Rate limited")
          ∧ (EmailService.sentEmails s1 = EmailService.sentEmails service
             ∨ EmailService.sentEmails s1
               = {[test_id i]} ∪ EmailService.sentEmails service))
    as (Hterm & Hnodup & Hnorl & Hs).
  { destruct status_distinct as (Hd1 & Hd2 & Hd3).
    destruct Hcase as [(-> & Hrefused & Hs)|[(-> & _ & Hin & Hs)|[(-> & _ & _ & Hs)
                      |(p & Hin & -> & _ & _ & Hs)]]].
    - split; [by left|]. split; [done|]. split; [|by left].
      intros Hi _. apply not_true_iff_false in Hrefused. apply Hrefused.
      apply Hadm. lia.
    - destruct (Hsent _ Hin) as (j & Hj & Heq).
      apply test_id_inj in Heq. lia.
    - split; [right; right; by left|]. split; [congruence|].
      split; [intros _; congruence|by left].
    - destruct (sent_via_distinct (name p)) as (Hn1 & Hn2 & _).
      split; [right; right; right; by exists p|]. split; [congruence|].
      split; [intros _; congruence|by right]. }
  unfold mbind at 1. unfold M_bind at 1. unfold console_log at 1.
  specialize (IH (S i) s1 ext1).
  destruct (main_loop left (S i) s1 ext1) as [[[r' s2] ext2] evs2].
  destruct IH as (-> & Hp2 & Hframe & statuses & Hn & Hprinted & Hterms & Hnodups
                  & Hnorls & Hgets).
  { unfold consistent in *. congruence. }
  { by rewrite Hp. }
  { by rewrite Hrl, Hlim'. }
  { rewrite Hrl, Hts. destruct (RateLimiter.allow_at _ _).1;
      [rewrite length_app; simpl|]; lia. }
  { intros id Hin. destruct Hs as [Hs|Hs]; rewrite Hs in Hin.
    - destruct (Hsent id Hin) as (j & Hj & ->). exists j. split; [lia|done].
    - apply elem_of_union in Hin as [Hin|Hin].
      + apply elem_of_singleton in Hin as ->. exists i. split; [lia|done].
      + destruct (Hsent id Hin) as (j & Hj & ->). exists j. split; [lia|done]. }
  split; [done|]. split; [congruence|]. split.
  { intros id Hid. rewrite Hframe by (intros j Hj; apply Hid; lia).
    rewrite Hlog, lookup_insert_ne; [done|]. intros Heq. by apply (Hid i). }
  exists (status :: statuses). split; [simpl; by rewrite Hn|]. split.
  { unfold printed in *. rewrite logged_app, filter_app, Hquiet.
    change (logged ([Logged ?a ?b] ++ evs2)) with ((a, b) :: logged evs2).
    rewrite filter_cons_True by apply test_id_printed.
    rewrite Hprinted. done. }
  split.
  { constructor; [done|]. eapply Forall_impl; [exact Hterms|].
    intros st. unfold terminal_outcome. by rewrite Hp. }
  split; [by constructor|]. split.
  { intros [|k] st Hk Hi; simpl in Hk.
    - injection Hk as <-. apply Hnorl. lia.
    - apply (Hnorls k st Hk). lia. }
  intros [|k] st Hk; simpl in Hk.
  - injection Hk as <-. rewrite Nat.add_0_r. unfold EmailService.getStatus.
    rewrite Hframe, Hlog, lookup_insert_eq; [done|].
    intros j Hj Heq. apply test_id_inj in Heq. lia.
  - replace (i + S k)%nat with (S i + k)%nat by lia. by apply Hgets.
Qed.

(** X17. The self-executing test block, in any outside world and
    whatever [Math.random()] yields: it never throws; it prints exactly
    ten result lines, for the ids email-0 to email-9 in this order; each
    result is "Sent via ProviderA", "Sent via ProviderB", "All providers
    failed" or "Rate limited", never "Duplicate skipped"; the first five
    are never "Rate limited"; and afterwards [getStatus] of each id is
    the result printed for it. *)
Theorem main_prints_ten_results `{Runtime Ext} (ext : Ext) :
  let '(r, service, _, evs) := main ext in
  r = Fulfilled undefined
  ∧ ∃ statuses,
      length statuses = 10%nat
      ∧ printed evs = zip (test_id <$> seq 0 10) statuses
      ∧ Forall (λ status,
                  status ∈ ["Sent via ProviderA"; "Sent via ProviderB";
                            "All providers failed"; "Rate limited"])
               statuses
      ∧ (∀ k status, statuses !! k = Some status → (k < 5)%nat →
                     status ≠ "Rate limited")
      ∧ (∀ k status, statuses !! k = Some status →
                     EmailService.getStatus service (test_id k) = str status).
Proof.
  unfold main.
  pose proof (main_loop_rounds 10 0
                (EmailService.constructor
                   [MockEmailProvider.provider (MockEmailProvider.new "ProviderA");
                    MockEmailProvider.provider (MockEmailProvider.new "ProviderB")])
                ext) as Hrounds.
  cbv zeta.
  destruct (main_loop 10 0 _ ext) as [[[r service] ext'] evs].
  destruct Hrounds as (-> & _ & _ & statuses & Hn & Hprinted & Hterms & Hnodups
                       & Hnorls & Hgets).
  { apply constructor_consistent. }
  { repeat constructor; intros email x; simpl;
      unfold MockEmailProvider.sendEmail; simpl;
      destruct (math_random x) as [draw x1];
      by destruct (negb (Qle_bool draw (7 # 10))). }
  { done. }
  { simpl. lia. }
  { intros id Hin. by apply not_elem_of_empty in Hin. }
  split; [done|]. exists statuses. split; [done|]. split; [done|].
  split; [|split; [exact Hnorls|exact Hgets]].
  rewrite Forall_forall in Hterms, Hnodups. apply Forall_forall.
  intros status Hin. specialize (Hnodups status Hin).
  destruct (Hterms status Hin) as [->|[->|[->|(p & Hp & ->)]]].
  - set_solver.
  - done.
  - set_solver.
  - simpl in Hp. apply elem_of_cons in Hp as [->|Hp]; [set_solver|].
    apply list_elem_of_singleton in Hp as ->. set_solver.
Qed.

(** ** send: an open circuit *)

(** X18. When the first provider's breaker answers false at the moment
    [send] asks it (right after the limiter has read the clock), [send]
    does not invoke that provider and leaves its breaker as it is; if it
    is the only provider, [send] returns "All providers failed" without
    invoking, waiting for or logging anything. *)
Theorem send_skips_open_circuit `{Runtime Ext} (this : EmailService.t Ext)
    (email : Email) (id : string) (ext : Ext)
    (provider : Provider Ext) (rest : list (Provider Ext))
    (breaker : CircuitBreaker.t) (breakers : list CircuitBreaker.t) :
  consistent this →
  EmailService.providers this = provider :: rest →
  EmailService.circuitBreakers this = breaker :: breakers →
  (RateLimiter.allow (EmailService.rateLimiter this) ext).1.1.1 = true →
  id ∉ EmailService.sentEmails this →
  (CircuitBreaker.allow breaker (date_now ext).2).1.1 = false →
  let '(r, this', _, evs) := EmailService.send this email id ext in
  (0%nat ∉ invocations evs)
  ∧ EmailService.circuitBreakers this' !! 0%nat = Some breaker
  ∧ (rest = [] →
     r = Fulfilled (str "All providers failed")
     ∧ evs = []
     ∧ EmailService.sentEmails this' = EmailService.sentEmails this).
Proof.
  intros Hcons Hp Hcbs Hadmit Hnew Hopen.
  unfold EmailService.send. rewrite send_with_run.
  rewrite RateLimiter_allow_run in Hadmit. simpl in Hadmit.
  destruct (RateLimiter.allow_at _ _) as [allowed limiter].
  simpl in Hadmit. subst allowed. rewrite decide_False by done.
  rewrite Hp, try_providers_cons.
  cbn [EmailService.circuitBreakers EmailService.set_rateLimiter].
  rewrite Hcbs. cbn [lookup list_lookup].
  destruct (CircuitBreaker.allow breaker (date_now ext).2)
    as [[allowed ext1] evs0].
  simpl in Hopen. subst allowed.
  assert (1 ≤ EmailService.default_retries) as Hretries by done.
  pose proof (try_providers_from EmailService.default_retries
                EmailService.default_delay email id rest Hretries
                1%nat (EmailService.set_rateLimiter limiter this) ext1) as Hloop.
  pose proof (try_providers_nil EmailService.default_retries
                EmailService.default_delay email id 1%nat
                (EmailService.set_rateLimiter limiter this) ext1) as Hnil.
  destruct (EmailService.try_providers _ _ _ _ rest _ _ _)
    as [[[r this'] ext3] evs3] eqn:Hrun.
  destruct Hloop as [Hrange Hkeep].
  assert (0%nat ∉ invocations evs3) as Hnot.
  { intros Hin. rewrite Forall_forall in Hrange. apply Hrange in Hin. lia. }
  split; [done|]. split.
  { rewrite Hkeep by lia. simpl. by rewrite Hcbs. }
  intros ->. rewrite Hnil in Hrun. by simplify_eq.
Qed.

Lemma send_skips_open_circuit_witness :
  let '(r, this', _, evs) := EmailService.send service_tripped hello "email-0" 0 in
  (0%nat ∉ invocations evs)
  ∧ EmailService.circuitBreakers this' !! 0%nat
    = Some (CircuitBreaker.mk 3 10000 7 5000)
  ∧ ([MockEmailProvider.provider ProviderB] = [] →
     r = Fulfilled (str "All providers failed")
     ∧ evs = []
     ∧ EmailService.sentEmails this' = EmailService.sentEmails service_tripped).
Proof.
  refine (send_skips_open_circuit service_tripped hello "email-0" 0
            (MockEmailProvider.provider ProviderA_down)
            [MockEmailProvider.provider ProviderB]
            (CircuitBreaker.mk 3 10000 7 5000) [CircuitBreaker.default]
            _ _ _ _ _ _).
  - reflexivity.
  - reflexivity.
  - reflexivity.
  - vm_compute. reflexivity.
  - vm_compute. intros Hin. discriminate Hin.
  - vm_compute. reflexivity.
Defined.

(** ** send: when it throws *)

(** X19. On a service built by the constructor and used through
    [send], a [send] either returns one of the four statuses, or is
    rejected with the [TypeError] raised by reading [err.message] of an
    [undefined] or [null] with which one of the providers has rejected.
    So with providers that never reject with [undefined] or [null],
    [send] never throws. *)
Theorem send_throws_only_on_nullish_rejection `{Runtime Ext}
    (this : EmailService.t Ext) (email : Email) (id : string) (ext : Ext) :
  reachable this →
  let r := (EmailService.send this email id ext).1.1.1 in
  ((∃ status, r = Fulfilled (str status) ∧ terminal_outcome this status)
   ∨ (∃ provider err type_error x,
        provider ∈ EmailService.providers this
        ∧ (sendEmail provider email x).1 = Rejected err
        ∧ nullish err = true
        ∧ read_message err = inl type_error
        ∧ r = Rejected type_error))
  ∧ (Forall never_nullish (EmailService.providers this) →
     ∃ status, r = Fulfilled (str status) ∧ terminal_outcome this status).
Proof.
  intros Hreach r. subst r.
  apply reachable_consistent in Hreach. unfold consistent in Hreach.
  pose proof (send_with_outcome EmailService.default_retries
                EmailService.default_delay this email id ext) as Hstep.
  unfold EmailService.send.
  destruct (EmailService.send_with _ _ _ _ _ _) as [[[r this'] ext'] evs].
  cbn [fst snd].
  destruct Hstep as (_ & _ & _ & [[_ Hlt]|[(p & e & te & x & Hp & Hx & Hte & -> & _)
                                 |(status & -> & _ & Hout & _)]]).
  - lia.
  - assert (nullish e = true) as Hnull.
    { apply read_message_nullish. by exists te. }
    split.
    + right. by exists p, e, te, x.
    + intros Hclean. rewrite Forall_forall in Hclean.
      specialize (Hclean p Hp email x). rewrite Hx in Hclean. congruence.
  - split; [left|intros _]; by exists status.
Qed.

Lemma send_throws_only_on_nullish_rejection_witness :
  reachable service
  ∧ Forall never_nullish (EmailService.providers service)
  ∧ ∃ status,
      (EmailService.send service hello "email-0" 0).1.1.1 = Fulfilled (str status)
      ∧ terminal_outcome service status.
Proof.
  assert (Forall never_nullish (EmailService.providers service)) as Hclean.
  { repeat constructor. }
  split; [apply reachable_constructor|]. split; [exact Hclean|].
  apply (send_throws_only_on_nullish_rejection service hello "email-0" 0);
    [apply reachable_constructor|exact Hclean].
Defined.

(** ** send: the fallback procedure *)





(** ** send: fallback in list order, with providers that fail with a value *)

Lemma backoff_trace_last (tag : nat) (delay : Z) (last : Settled)
    (errs : list Error) :
  ∀ k, ∃ evs0,
    backoff_trace tag delay k errs last = evs0 ++ [Invoked tag last]
    ∧ Forall unsuccessful evs0.
Proof.
  induction errs as [|e errs IH]; intros k.
  { exists []. split; [done|constructor]. }
  destruct (IH (k + 1)) as (evs0 & Heq & Hfailed).
  exists (Invoked tag (Rejected e) :: Waited (delay * 2 ^ k) :: evs0).
  split; [simpl; by rewrite Heq|]. by repeat constructor.
Qed.

Lemma backoff_trace_unsuccessful (tag : nat) (delay : Z) (err : Error)
    (errs : list Error) :
  ∀ k, Forall unsuccessful (backoff_trace tag delay k errs (Rejected err)).
Proof.
  induction errs as [|e errs IH]; intros k; simpl; repeat constructor. apply IH.
Qed.

Lemma filter_replicate_same (n j : nat) :
  filter (λ k, k = j) (replicate n j) = replicate n j.
Proof.
  induction n as [|n IH]; [done|]. simpl.
  by rewrite filter_cons_True, IH.
Qed.

Lemma filter_replicate_other (n i j : nat) :
  i ≠ j → filter (λ k, k = j) (replicate n i) = [].
Proof.
  intros Hne. apply filter_none, Forall_forall. intros k Hk.
  apply elem_of_replicate_inv in Hk. congruence.
Qed.

Lemma try_providers_fallback `{Runtime Ext} (retries delay : Z) (email : Email)
    (id : string) (providers : list (Provider Ext)) :
  1 ≤ retries →
  Forall never_nullish providers →
  ∀ (rest : list (Provider Ext)) (i : nat) (this : EmailService.t Ext) (ext : Ext),
    drop i providers = rest →
    length (EmailService.circuitBreakers this) = length providers →
    let '(r, this', _, evs) :=
      EmailService.try_providers retries delay email id rest i this ext in
    ∃ winner,
      fallback_order retries i providers (EmailService.circuitBreakers this)
        (EmailService.circuitBreakers this') r evs winner.
Proof.
  intros Hretries Hclean. induction rest as [|provider rest IH];
    intros i this ext Hdrop Hlen.
  { rewrite try_providers_nil. exists None.
    unfold fallback_order. simpl.
    split; [constructor|]. split; [constructor|]. split; [done|].
    split; [|split; [done|constructor]].
    intros j breaker Hj. by apply elem_of_nil in Hj. }
  assert (providers !! i = Some provider) as Hi.
  { rewrite <- (Nat.add_0_r i), <- lookup_drop, Hdrop. done. }
  assert (drop (S i) providers = rest) as Hdrop'.
  { rewrite (drop_S _ _ _ Hi) in Hdrop. by injection Hdrop. }
  pose proof (lookup_lt_Some _ _ _ Hi) as Hlt.
  assert (never_nullish provider) as Hclean1.
  { rewrite Forall_forall in Hclean. apply Hclean.
    by eapply list_elem_of_lookup_2. }
  destruct (lookup_lt_is_Some_2 (EmailService.circuitBreakers this) i)
    as [breaker Hbreaker]; [lia|].
  rewrite try_providers_cons, Hbreaker.
  destruct (CircuitBreaker.allow breaker ext) as [[allowed ext1] evs0].
  destruct allowed.
  - destruct (retryWithBackoff_trace i (sendEmail provider email) retries delay
                ext1 Hretries) as (errs & Htrace & Hshort & Hcount).
    pose proof (retry_loop_rejection i (sendEmail provider email) retries delay)
      as Hgenuine.
    unfold EmailService.retryWithBackoff in *.
    destruct (EmailService.retry_loop _ _ retries delay 0 ext1)
      as [[[v|err] ext2] evs] eqn:Hretry; cbn [fst snd] in *; subst evs.
    + (* provider [i] delivers *)
      exists (Some i).
      destruct (backoff_trace_last i delay (Fulfilled v) errs 1)
        as (evs0' & Hsplit & Hfailed).
      unfold fallback_order. cbn zeta.
      rewrite invocations_backoff_trace.
      cbn [sent_by EmailService.circuitBreakers EmailService.set_statusLog
           EmailService.set_circuitBreakers EmailService.set_sentEmails].
      split; [apply StronglySorted_replicate|].
      split.
      { apply Forall_forall. intros j Hj.
        apply elem_of_replicate_inv in Hj as ->. lia. }
      split.
      { intros j Hj. apply list_lookup_insert_ne. intros <-.
        apply Hj. by apply elem_of_replicate. }
      split.
      { intros j b Hj Hne. apply elem_of_replicate_inv in Hj as ->. done. }
      exists provider, (CircuitBreaker.reset breaker), v, evs0'.
      split; [done|]. split; [done|]. split; [done|]. split; [done|].
      split.
      { apply Forall_forall. intros j Hj.
        by apply elem_of_replicate_inv in Hj as ->. }
      split; [|done]. apply list_lookup_insert_eq. lia.
    + (* provider [i] uses up its retries *)
      destruct (Hgenuine err (Z.to_nat retries) 0 ext1) as [x Hx].
      { by rewrite Hretry. }
      specialize (Hclean1 email x). rewrite Hx in Hclean1.
      apply read_message_value in Hclean1 as [detail ->].
      specialize (Hcount eq_refl).
      specialize (IH (S i) (failed_at this i breaker (date_now ext2).1)
                     (date_now ext2).2 Hdrop').
      destruct (EmailService.try_providers _ _ _ _ _ _ _ _)
        as [[[r this'] ext3] evs3].
      cbn [failed_at EmailService.circuitBreakers
           EmailService.set_circuitBreakers] in IH.
      rewrite length_insert in IH.
      destruct (IH Hlen) as (winner & Hsorted & Hrange & Hskip & Hbump & Hwin).
      clear IH. exists winner.
      unfold fallback_order in *. cbn zeta in *.
      rewrite invocations_app, invocations_backoff_trace.
      change (invocations (Logged ?a ?b :: evs3)) with (invocations evs3).
      replace (S (length errs)) with (Z.to_nat retries) by lia.
      assert (i ∈ replicate (Z.to_nat retries) i) as Hin.
      { apply elem_of_replicate. split; [done|lia]. }
      assert (i ∉ invocations evs3) as Hfresh.
      { intros Hin'. rewrite Forall_forall in Hrange. apply Hrange in Hin'. lia. }
      assert (winner ≠ Some i) as Hother.
      { intros ->. destruct Hwin as (p & b' & v & evs0' & _ & _ & Hevs & _).
        apply Hfresh. rewrite Hevs, invocations_app.
        apply elem_of_app. right. by apply list_elem_of_singleton. }
      split.
      { apply StronglySorted_app_2; [|apply StronglySorted_replicate|done].
        intros j1 j2 Hj1 Hj2. apply elem_of_replicate_inv in Hj1 as ->.
        rewrite Forall_forall in Hrange. apply Hrange in Hj2. lia. }
      split.
      { apply Forall_app. split.
        - apply Forall_forall. intros j Hj.
          apply elem_of_replicate_inv in Hj as ->. lia.
        - eapply Forall_impl; [exact Hrange|]. simpl. lia. }
      split.
      { intros j Hj. apply not_elem_of_app in Hj as [Hj1 Hj2].
        rewrite (Hskip j Hj2). apply list_lookup_insert_ne. by intros <-. }
      split.
      { intros j b Hj Hne Hb. rewrite filter_app.
        destruct (decide (j = i)) as [->|Hji].
        - rewrite filter_replicate_same, length_app, length_replicate.
          rewrite (filter_none (λ k, k = i) (invocations evs3)).
          2:{ apply Forall_forall. intros k Hk ->. done. }
          split; [simpl; lia|].
          rewrite (Hskip i Hfresh), list_lookup_insert_eq by lia.
          eexists. split; [done|]. simplify_eq. done.
        - rewrite filter_replicate_other by done.
          apply elem_of_app in Hj as [Hj|Hj].
          { by apply elem_of_replicate_inv in Hj. }
          apply (Hbump j b); [done|done|].
          by rewrite list_lookup_insert_ne. }
      destruct winner as [w|].
      * destruct Hwin as (p & b' & v & evs0' & Hp & Hr & Hevs & Hfailed & Hle
                          & Hafter & Hzero).
        exists p, b', v,
          (backoff_trace i delay 1 errs (Rejected err)
             ++ Logged ("[LOG] Provider " +:+ name provider +:+ " failed:") detail
             :: evs0').
        split; [done|]. split; [done|].
        split; [by rewrite Hevs, <- app_assoc|].
        split.
        { apply Forall_app. split; [apply backoff_trace_unsuccessful|].
          by constructor. }
        split; [|done].
        apply Forall_app. split; [|done].
        apply Forall_forall. intros j Hj. apply elem_of_replicate_inv in Hj as ->.
        assert (w ∈ invocations evs3) as Hw.
        { rewrite Hevs, invocations_app. apply elem_of_app. right.
          by apply list_elem_of_singleton. }
        rewrite Forall_forall in Hrange. apply Hrange in Hw. lia.
      * destruct Hwin as [-> Hfailed]. split; [done|].
        apply Forall_app. split; [apply backoff_trace_unsuccessful|].
        by constructor.
  - (* provider [i] is passed over *)
    specialize (IH (S i) this ext1 Hdrop' Hlen).
    destruct (EmailService.try_providers _ _ _ _ _ _ _ _)
      as [[[r this'] ext3] evs3].
    destruct IH as (winner & Hsorted & Hrange & Hskip & Hbump & Hwin).
    exists winner.
    split; [done|]. split; [|done].
    eapply Forall_impl; [exact Hrange|]. simpl. lia.
Qed.

(** Providers [A; B] with A always failing with a value that is not
    [undefined] or [null] and B always succeeding, both breakers below
    their thresholds. *)
Lemma send_with_two_providers `{Runtime Ext} (retries delay : Z)
    (this : EmailService.t Ext) (email : Email) (id : string) (ext : Ext)
    (A B : Provider Ext) (breakerA breakerB : CircuitBreaker.t) :
  1 ≤ retries →
  (RateLimiter.allow (EmailService.rateLimiter this) ext).1.1.1 = true →
  id ∉ EmailService.sentEmails this →
  EmailService.providers this = [A; B] →
  EmailService.circuitBreakers this = [breakerA; breakerB] →
  (∀ m x, is_rejected (sendEmail A m x).1 = true) →
  never_nullish A →
  (∀ m x, is_rejected (sendEmail B m x).1 = false) →
  CircuitBreaker.failures breakerA < CircuitBreaker.failureThreshold breakerA →
  CircuitBreaker.failures breakerB < CircuitBreaker.failureThreshold breakerB →
  let '(r, this', _, evs) := EmailService.send_with retries delay this email id ext in
  r = Fulfilled (str ("Sent via " +:+ name B))
  ∧ invocations evs = replicate (Z.to_nat retries) 0%nat ++ [1%nat]
  ∧ ∃ breakerA' breakerB',
      EmailService.circuitBreakers this' = [breakerA'; breakerB']
      ∧ CircuitBreaker.failures breakerA' = CircuitBreaker.failures breakerA + 1
      ∧ CircuitBreaker.failures breakerB' = 0.
Proof.
  intros Hretries Hadmit Hnew Hp Hcbs HA HcleanA HB HcbA HcbB.
  rewrite send_with_run. rewrite RateLimiter_allow_run in Hadmit. simpl in Hadmit.
  destruct (RateLimiter.allow_at _ _) as [allowed limiter].
  simpl in Hadmit. subst allowed. rewrite decide_False by done.
  rewrite Hp, try_providers_cons.
  cbn [EmailService.circuitBreakers EmailService.set_rateLimiter].
  rewrite Hcbs. cbn [lookup list_lookup].
  rewrite CircuitBreaker_allow_closed by done.
  destruct (retryWithBackoff_rejected_trace 0 (sendEmail A email) retries delay
              (date_now ext).2 Hretries (HA email))
    as (err & ext2 & errs & -> & Hcount & x & Hx).
  specialize (HcleanA email x). rewrite Hx in HcleanA.
  apply read_message_value in HcleanA as [detail ->].
  rewrite try_providers_cons.
  cbn [EmailService.circuitBreakers failed_at EmailService.set_circuitBreakers
       EmailService.set_rateLimiter].
  rewrite Hcbs. cbn [insert list_insert lookup list_lookup].
  rewrite CircuitBreaker_allow_closed by done.
  destruct (retryWithBackoff_always_fulfilled 1 (sendEmail B email) retries delay
              (date_now ext2).2 Hretries (HB email))
    as (v & ext3 & ->).
  cbn [sent_by failed_at EmailService.circuitBreakers
       EmailService.set_circuitBreakers EmailService.set_rateLimiter
       EmailService.set_statusLog EmailService.set_sentEmails].
  rewrite Hcbs. cbn [insert list_insert lookup list_lookup].
  split; [done|]. split.
  { rewrite invocations_app, invocations_backoff_trace.
    replace (S (length errs)) with (Z.to_nat retries) by lia. done. }
  eexists _, _. split; [done|]. done.
Qed.

(** X21. On a service with one breaker per provider whose providers
    never reject with [undefined] or [null], a [send] that the limiter
    admits, for an id not sent before: the providers are invoked in list
    order, and the breaker of a provider that is not invoked stays as it
    is; every provider invoked before the one that delivers has used up
    its three attempts and counts one more failure; the delivering
    provider's successful invocation is the last event of the call and
    the only invocation that succeeded, no provider after it is invoked,
    it names the returned status and has its count at zero; if none
    delivers, no invocation succeeded and the status is "All providers
    failed".  In particular, with providers [A; B], A always failing and
    B always succeeding, both breakers below threshold, the status names
    B, A counts one more failure and B counts zero. *)
Theorem send_falls_back_in_order `{Runtime Ext} (this : EmailService.t Ext)
    (email : Email) (id : string) (ext : Ext) :
  consistent this →
  Forall never_nullish (EmailService.providers this) →
  (RateLimiter.allow (EmailService.rateLimiter this) ext).1.1.1 = true →
  id ∉ EmailService.sentEmails this →
  let '(r, this', _, evs) := EmailService.send this email id ext in
  (∃ winner,
     fallback_order 3 0 (EmailService.providers this)
       (EmailService.circuitBreakers this) (EmailService.circuitBreakers this')
       r evs winner)
  ∧ (∀ A B breakerA breakerB,
       EmailService.providers this = [A; B] →
       EmailService.circuitBreakers this = [breakerA; breakerB] →
       (∀ m x, is_rejected (sendEmail A m x).1 = true) →
       (∀ m x, is_rejected (sendEmail B m x).1 = false) →
       CircuitBreaker.failures breakerA < CircuitBreaker.failureThreshold breakerA →
       CircuitBreaker.failures breakerB = 0 →
       0 < CircuitBreaker.failureThreshold breakerB →
       r = Fulfilled (str ("Sent via " +:+ name B))
       ∧ invocations evs = [0; 0; 0; 1]%nat
       ∧ ∃ breakerA' breakerB',
           EmailService.circuitBreakers this' = [breakerA'; breakerB']
           ∧ CircuitBreaker.failures breakerA'
             = CircuitBreaker.failures breakerA + 1
           ∧ CircuitBreaker.failures breakerB' = 0).
Proof.
  intros Hcons Hclean Hadmit Hnew.
  assert (let '(r, this', _, evs) := EmailService.send this email id ext in
          ∃ winner,
            fallback_order 3 0 (EmailService.providers this)
              (EmailService.circuitBreakers this)
              (EmailService.circuitBreakers this') r evs winner)
    as Hgeneral.
  { unfold EmailService.send. rewrite send_with_run.
    rewrite RateLimiter_allow_run in Hadmit. simpl in Hadmit.
    destruct (RateLimiter.allow_at _ _) as [allowed limiter].
    simpl in Hadmit. subst allowed. rewrite decide_False by done.
    assert (1 ≤ EmailService.default_retries) as Hretries by done.
    exact (try_providers_fallback EmailService.default_retries
             EmailService.default_delay email id (EmailService.providers this)
             Hretries Hclean (EmailService.providers this) 0
             (EmailService.set_rateLimiter limiter this) (date_now ext).2
             eq_refl Hcons). }
  pose proof (λ A B breakerA breakerB,
                send_with_two_providers EmailService.default_retries
                  EmailService.default_delay this email id ext A B
                  breakerA breakerB) as Htwo.
  unfold EmailService.send in *.
  destruct (EmailService.send_with _ _ _ _ _ _) as [[[r this'] ext'] evs].
  split; [exact Hgeneral|].
  intros A B breakerA breakerB Hp Hcbs HA HB HcbA HcbB Hthr.
  apply (Htwo A B breakerA breakerB); try done; [|lia].
  rewrite Hp in Hclean. by apply Forall_cons in Hclean as [? _].
Qed.

Lemma send_falls_back_in_order_witness :
  (EmailService.send service hello "email-0" 0).1.1.1
  = Fulfilled (str "Sent via ProviderB")
  ∧ invocations (EmailService.send service hello "email-0" 0).2 = [0; 0; 0; 1]%nat
  ∧ ∃ breakerA' breakerB',
      EmailService.circuitBreakers
        (EmailService.send service hello "email-0" 0).1.1.2
      = [breakerA'; breakerB']
      ∧ CircuitBreaker.failures breakerA' = 1
      ∧ CircuitBreaker.failures breakerB' = 0.
Proof.
  pose proof (send_falls_back_in_order service hello "email-0" 0) as Hrun.
  destruct (EmailService.send service hello "email-0" 0)
    as [[[r this'] ext'] evs].
  destruct Hrun as [_ Htwo].
  - reflexivity.
  - repeat constructor.
  - vm_compute. reflexivity.
  - vm_compute. intros Hin. discriminate Hin.
  - apply (Htwo (MockEmailProvider.provider ProviderA_down)
                (MockEmailProvider.provider ProviderB)
                CircuitBreaker.default CircuitBreaker.default).
    + reflexivity.
    + reflexivity.
    + intros m x. reflexivity.
    + intros m x. reflexivity.
    + simpl. lia.
    + reflexivity.
    + simpl. lia.
Defined.
